(** * ml-utils: OpenPose keypoint post-processing and the dataset splitter

    A shallow embedding of [cv/pose/openpose/openpose.py] and
    [general/dir_utils.py].

    Conventions of the embedding.
    - A Python [float] (a confidence, a pixel coordinate, a split ratio)
      is a rational number [Q]; an arithmetic operation on floats returns
      its exact result rounded by [round], a parameter of the embedding
      of which only monotonicity and [round 0 = 0] are ever used (laws
      that IEEE binary64 rounding has). NaN, the infinities and overflow
      are left out. Module [Binary64] evaluates single expressions of the
      code in IEEE binary64 itself, with Rocq's primitive floats.
    - Python exceptions are values of [exn]; a computation that may raise
      returns a [result].
    - Mutable objects live in an explicit store; code that mutates the
      outside world (drawing on an image, the file system) threads that
      store through a small state-and-exception monad [M].
    - Calls into OpenCV, [glob], [shutil], [pathlib] and [random] are
      modelled by their documented behaviour; everything else follows the
      repository's code line by line. What [get_data_paths] reads from
      the file system and the library ([is_dir], [glob], the text of a
      path or of a list, [str.lower]) is a parameter of its embedding. *)

From Stdlib Require Import QArith Qround Floats.
From stdpp Require Import base option list gmap strings pretty sorting.

(** ** Python values *)

Module Py.

(** The exceptions the two source files can raise. *)
Inductive exn : Type :=
| AssertionError (msg : string)
| IndexError
| KeyError (key : string)
| ZeroDivisionError
| AttributeError
| Cv2Error.

Inductive result (A : Type) : Type :=
| Ok (a : A)
| Raise (e : exn).
Arguments Ok {A} a.
Arguments Raise {A} e.

(** [M S A]: a computation over a store [S] that returns an [A] or
    raises; the store reached is kept in both cases, as in Python. *)
Definition M (S A : Type) : Type := S → S * result A.

Definition ret {S A} (a : A) : M S A := λ s, (s, Ok a).
Definition raise {S A} (e : exn) : M S A := λ s, (s, Raise e).
Definition bind {S A B} (m : M S A) (k : A → M S B) : M S B :=
  λ s, match m s with
       | (s', Ok a) => k a s'
       | (s', Raise e) => (s', Raise e)
       end.
Definition lift {S A} (r : result A) : M S A := λ s, (s, r).
Definition modify {S} (f : S → S) : M S unit := λ s, (f s, Ok tt).

(** [for x in xs: body x] *)
Fixpoint for_each {S A} (xs : list A) (body : A → M S unit) : M S unit :=
  match xs with
  | [] => ret tt
  | x :: xs' => bind (body x) (λ _, for_each xs' body)
  end.

(** Pure exception-only computations. *)
Definition rbind {A B} (r : result A) (k : A → result B) : result B :=
  match r with Ok a => k a | Raise e => Raise e end.

(** [[f x for x in xs]] where [f] may raise. *)
Fixpoint rmap {A B} (f : A → result B) (xs : list A) : result (list B) :=
  match xs with
  | [] => Ok []
  | x :: xs' => rbind (f x) (λ y, rbind (rmap f xs') (λ ys, Ok (y :: ys)))
  end.

(** *** Floating point *)

(** The rounding of an exact result to the floating-point format. *)
Class Rounding := round : Q → Q.

(** What is assumed of the rounding. *)
Class RoundingLaws {R : Rounding} : Prop := {
  round_mono (x y : Q) : (x <= y)%Q → (round x <= round y)%Q;
  round_0 : (round 0 == 0)%Q
}.

(** Exact arithmetic: the rounding that rounds nothing. *)
Definition exact : Rounding := λ q, q.

(** A number the format holds. *)
Definition representable {R : Rounding} (x : Q) : Prop := (round x == x)%Q.

(** A float literal of the source. *)
Definition literal {R : Rounding} (q : Q) : Q := round q.

(** An int used where a float is expected. *)
Definition float {R : Rounding} (n : Z) : Q := round (inject_Z n).

(** [a + b] and [a * b] on floats. *)
Definition fadd {R : Rounding} (a b : Q) : Q := round (a + b).
Definition fmul {R : Rounding} (a b : Q) : Q := round (a * b).

(** [a / b] on two ints: true division, the exact quotient rounded. *)
Definition truediv {R : Rounding} (a b : Z) : result Q :=
  if decide (b = 0%Z) then Raise ZeroDivisionError
  else Ok (round (inject_Z a / inject_Z b)).

(** [int(x)] on a float: truncation toward zero. *)
Definition int (x : Q) : Z := Z.quot (Qnum x) (Zpos (Qden x)).

(** [a > b] on floats. *)
Definition gt (a b : Q) : bool := negb (Qle_bool a b).

(** [a <= b] on floats. *)
Definition le (a b : Q) : bool := Qle_bool a b.

(** [xs[i]] for a non-negative index. *)
Definition getitem {A} (xs : list A) (i : nat) : result A :=
  match xs !! i with Some x => Ok x | None => Raise IndexError end.

(** [d[k]] on a dict with string keys. *)
Definition dict_get {A} (d : gmap string A) (k : string) : result A :=
  match d !! k with Some x => Ok x | None => Raise (KeyError k) end.

(** Index normalisation of a slice bound: a negative bound counts from
    the end, and the result is clamped to [0, len]. *)
Definition clamp (len : nat) (i : Z) : nat :=
  if decide (i < 0)%Z then Z.to_nat (Z.max 0 (i + Z.of_nat len))
  else Nat.min (Z.to_nat i) len.

(** [xs[lo:hi]], a missing bound given as [None]. *)
Definition slice {A} (xs : list A) (lo hi : option Z) : list A :=
  let n := length xs in
  let l := from_option (clamp n) 0%nat lo in
  let h := from_option (clamp n) n hi in
  take (h - l) (drop l xs).

End Py.

#[global] Instance result_ret : MRet Py.result := @Py.Ok.
#[global] Instance result_bind : MBind Py.result := λ A B k r, Py.rbind r k.
#[global] Instance M_ret {S} : MRet (Py.M S) := @Py.ret S.
#[global] Instance M_bind {S} : MBind (Py.M S) := λ A B k m, Py.bind m k.


(** ** cv/pose/openpose/openpose.py *)

Module OpenPose.
Import Py.

(** *** Arrays and images *)

(** A 4-D [numpy] array: its shape and its entries. *)
Record ndarray4 : Type := {
  dim0 : nat; dim1 : nat; dim2 : nat; dim3 : nat;
  at4 : nat → nat → nat → nat → Q
}.

(** A 2-D array, indexed by row then column. *)
Record mat : Type := { rows : nat; cols : nat; cell : nat → nat → Q }.

(** [a[i, idx, :, :]] *)
Definition plane (a : ndarray4) (i idx : nat) : result mat :=
  if decide (i < dim0 a ∧ idx < dim1 a)%nat
  then Ok {| rows := dim2 a; cols := dim3 a; cell := at4 a i idx |}
  else Raise IndexError.

(** The positions [(row, column)] of a matrix in scan order: OpenCV
    walks the entries by flat offset, row after row. *)
Definition ofs2idx (m : mat) (ofs : nat) : nat * nat :=
  (ofs / cols m, ofs mod cols m)%nat.
Definition scan_order (m : mat) : list (nat * nat) :=
  ofs2idx m <$> seq 0 (rows m * cols m).

(** What [cv2.minMaxLoc] returns; locations are [(x, y)], that is
    (column, row). *)
Record extrema : Type := {
  minVal : Q; maxVal : Q; minLoc : nat * nat; maxLoc : nat * nat
}.

Definition visit (m : mat) (e : extrema) (rc : nat * nat) : extrema :=
  let v := cell m rc.1 rc.2 in
  let e' := if gt (minVal e) v
            then {| minVal := v; maxVal := maxVal e;
                    minLoc := (rc.2, rc.1); maxLoc := maxLoc e |}
            else e in
  if gt v (maxVal e')
  then {| minVal := minVal e'; maxVal := v;
          minLoc := minLoc e'; maxLoc := (rc.2, rc.1) |}
  else e'.

(** [cv2.minMaxLoc(m)]: one pass in scan order; an extremum is replaced
    only by a strictly better value, so ties keep the first occurrence.
    An empty matrix has no maximum and the call is taken to raise; an
    OpenCV that returns the location (-1, -1) instead makes the
    division that follows in [_parse_keypoints] raise. *)
Definition minMaxLoc (m : mat) : result extrema :=
  match scan_order m with
  | [] => Raise Cv2Error
  | rc :: rest =>
      let v := cell m rc.1 rc.2 in
      Ok (foldl (visit m)
            {| minVal := v; maxVal := v;
               minLoc := (rc.2, rc.1); maxLoc := (rc.2, rc.1) |} rest)
  end.

(** *** Model information of the three predictors *)

Record topology : Type := {
  BODY_PARTS : gmap string nat;
  POSE_PAIRS : list (string * string)
}.

Definition COCO : topology := {|
  BODY_PARTS := list_to_map [
    ("Nose", 0); ("Neck", 1); ("RShoulder", 2); ("RElbow", 3);
    ("RWrist", 4); ("LShoulder", 5); ("LElbow", 6); ("LWrist", 7);
    ("RHip", 8); ("RKnee", 9); ("RAnkle", 10); ("LHip", 11);
    ("LKnee", 12); ("LAnkle", 13); ("REye", 14); ("LEye", 15);
    ("REar", 16); ("LEar", 17); ("Background", 18)]%nat;
  POSE_PAIRS := [
    ("Neck", "RShoulder"); ("RShoulder", "RElbow"); ("RElbow", "RWrist");
    ("Neck", "LShoulder"); ("LShoulder", "LElbow"); ("LElbow", "LWrist");
    ("Neck", "RHip"); ("RHip", "RKnee"); ("RKnee", "RAnkle");
    ("Neck", "LHip"); ("LHip", "LKnee"); ("LKnee", "LAnkle");
    ("Neck", "Nose"); ("Nose", "REye"); ("REye", "REar");
    ("Nose", "LEye"); ("LEye", "LEar")]
|}.

Definition MPI : topology := {|
  BODY_PARTS := list_to_map [
    ("Head", 0); ("Neck", 1); ("RShoulder", 2); ("RElbow", 3);
    ("RWrist", 4); ("LShoulder", 5); ("LElbow", 6); ("LWrist", 7);
    ("RHip", 8); ("RKnee", 9); ("RAnkle", 10); ("LHip", 11);
    ("LKnee", 12); ("LAnkle", 13); ("Chest", 14); ("Background", 15)]%nat;
  POSE_PAIRS := [
    ("Head", "Neck"); ("Neck", "RShoulder"); ("RShoulder", "RElbow");
    ("RElbow", "RWrist"); ("Neck", "LShoulder"); ("LShoulder", "LElbow");
    ("LElbow", "LWrist"); ("Neck", "Chest"); ("Chest", "RHip");
    ("RHip", "RKnee"); ("RKnee", "RAnkle"); ("Chest", "LHip");
    ("LHip", "LKnee"); ("LKnee", "LAnkle")]
|}.

Definition Body25 : topology := {|
  BODY_PARTS := list_to_map [
    ("Nose", 0); ("Neck", 1); ("RShoulder", 2); ("RElbow", 3);
    ("RWrist", 4); ("LShoulder", 5); ("LElbow", 6); ("LWrist", 7);
    ("MidHip", 8); ("RHip", 9); ("RKnee", 10); ("RAnkle", 11);
    ("LHip", 12); ("LKnee", 13); ("LAnkle", 14); ("REye", 15);
    ("LEye", 16); ("REar", 17); ("LEar", 18); ("LBigToe", 19);
    ("LSmallToe", 20); ("LHeel", 21); ("RBigToe", 22);
    ("RSmallToe", 23); ("RHeel", 24); ("Background", 25)]%nat;
  POSE_PAIRS := [
    ("Neck", "Nose"); ("Neck", "RShoulder"); ("RShoulder", "RElbow");
    ("RElbow", "RWrist"); ("Neck", "LShoulder"); ("LShoulder", "LElbow");
    ("LElbow", "LWrist"); ("Nose", "REye"); ("REye", "REar");
    ("Nose", "LEye"); ("LEye", "LEar"); ("Neck", "MidHip");
    ("MidHip", "RHip"); ("RHip", "RKnee"); ("RKnee", "RAnkle");
    ("RAnkle", "RBigToe"); ("RBigToe", "RSmallToe"); ("RAnkle", "RHeel");
    ("MidHip", "LHip"); ("LHip", "LKnee"); ("LKnee", "LAnkle");
    ("LAnkle", "LBigToe"); ("LBigToe", "LSmallToe"); ("LAnkle", "LHeel")]
|}.

(** The subclasses of [OpenPosePredictor]; each one's
    [_init__model_infor] installs its tables. *)
Inductive predictor : Type :=
| COCOOpenPosePredictor
| MPIOpenPosePredictor
| Body25OpenPosePredictor.

Definition _init__model_infor (self : predictor) : topology :=
  match self with
  | COCOOpenPosePredictor => COCO
  | MPIOpenPosePredictor => MPI
  | Body25OpenPosePredictor => Body25
  end.

(** *** Keypoint extraction *)

(** [(x, y, prob)] *)
Abbreviation keypoint := (Q * Q * Q)%type.
Definition prob_of (k : keypoint) : Q := k.2.

Section extraction.
Context {R : Rounding}.

(** One turn of the loop of [_parse_keypoints]: the entry appended to
    [points] for channel [idx]. *)
Definition parse_channel (net_ouput : ndarray4) (img_size : Z * Z)
    (threshold : Q) (H W idx : nat) : result (option keypoint) :=
  probMap ← plane net_ouput 0 idx;
  e ← minMaxLoc probMap;
  let prob := maxVal e in
  let point := maxLoc e in
  x ← truediv (img_size.1 * Z.of_nat point.1) (Z.of_nat W);
  y ← truediv (img_size.2 * Z.of_nat point.2) (Z.of_nat H);
  mret (if gt prob threshold then Some (x, y, prob) else None).

Definition _parse_keypoints (self : topology) (net_ouput : ndarray4)
    (img_size : Z * Z) (threshold : Q) : result (list (option keypoint)) :=
  let H := dim2 net_ouput in
  let W := dim3 net_ouput in
  rmap (parse_channel net_ouput img_size threshold H W)
       (seq 0 (size (BODY_PARTS self))).

(** [predict] after the forward pass of the network has produced
    [output] for an image of size [img_w] by [img_h]. *)
Definition predict (self : topology) (output : ndarray4) (img_w img_h : Z)
    (threshold : Q) : result (list (option keypoint)) :=
  _parse_keypoints self output (img_w, img_h) threshold.

End extraction.

(** *** Images and drawing *)

(** The [lineType] and [fontFace] constants of OpenCV that occur;
    [LINE_8] is the default of [cv2.line]. *)
Inductive line_type : Type := FILLED | LINE_8 | LINE_AA.
Inductive font_face : Type := FONT_HERSHEY_SIMPLEX.

(** The OpenCV drawing calls the renderer makes, with their arguments
    (colours are BGR triples). *)
Inductive draw : Type :=
| Circle (center : Z * Z) (radius : Z) (color : Z * Z * Z) (thickness : Z)
         (lineType : line_type)
| PutText (text : string) (org : Z * Z) (fontFace : font_face)
          (fontScale : Q) (color : Z * Z * Z) (thickness : Z)
          (lineType : line_type)
| Line (pt1 pt2 : Z * Z) (color : Z * Z * Z) (thickness : Z)
       (lineType : line_type).

(** An image object: the pixel data it was created with and the
    drawing calls applied to it since, oldest first. *)
Record image : Type := {
  pixels : list (list (Z * Z * Z));
  drawn : list draw
}.

(** [im] with the calls [ds] applied to it. *)
Definition draw_on (im : image) (ds : list draw) : image :=
  {| pixels := pixels im; drawn := drawn im ++ ds |}.

(** Image objects are held by reference. *)
Definition ref : Type := nat.
Abbreviation heap := (gmap ref image).

(** [img.copy()]: a new object with the same contents. *)
Definition copy (img : ref) : M heap ref := λ h,
  match h !! img with
  | Some im => let r := fresh (dom h) in (<[r := im]> h, Ok r)
  | None => (h, Raise AttributeError)
  end.

(** A drawing call of OpenCV: it writes into the object it is given.
    On an image the call is taken to succeed; OpenCV rejects, for one,
    a coordinate that does not fit a C int. *)
Definition paint (img : ref) (d : draw) : M heap unit := λ h,
  match h !! img with
  | Some im =>
      (<[img := draw_on im [d]]> h, Ok tt)
  | None => (h, Raise Cv2Error)
  end.

Definition _visualize_points (self : topology)
    (keypoints : list (option keypoint)) (img : ref) (put_text : bool)
    (threshold : Q) : M heap ref :=
  _ ← for_each (seq 0 (size (BODY_PARTS self))) (λ i,
    k ← lift (getitem keypoints i);
    match k with
    | Some (x, y, prob) =>
        if gt prob threshold then
          _ ← paint img
                (Circle (int x, int y) 15 (0, 255, 255) (-1) FILLED)%Z;
          if put_text
          then paint img
                 (PutText (pretty i) (int x, int y) FONT_HERSHEY_SIMPLEX
                    1.4%Q (0, 0, 255) 3 LINE_AA)%Z
          else mret tt
        else mret tt
    | None => mret tt
    end);
  mret img.

(** One turn of the skeleton loop of [visualize]. *)
Definition draw_pair (self : topology) (keypoints : list (option keypoint))
    (img_copy : ref) (threshold : Q) (pair : string * string)
    : M heap unit :=
  p1 ← lift (dict_get (BODY_PARTS self) pair.1);
  p2 ← lift (dict_get (BODY_PARTS self) pair.2);
  k1 ← lift (getitem keypoints p1);
  match k1 with
  | Some (x1, y1, prob1) =>
      if gt prob1 threshold then
        k2 ← lift (getitem keypoints p2);
        match k2 with
        | Some (x2, y2, prob2) =>
            if gt prob2 threshold
            then paint img_copy
                   (Line (int x1, int y1) (int x2, int y2) (0, 255, 0) 3
                      LINE_8)%Z
            else mret tt
        | None => mret tt
        end
      else mret tt
  | None => mret tt
  end.

Definition visualize (self : topology) (keypoints : list (option keypoint))
    (img : ref) (put_text : bool) (threshold : Q) : M heap ref :=
  img_copy ← copy img;
  img_copy ← _visualize_points self keypoints img_copy put_text threshold;
  _ ← for_each (POSE_PAIRS self)
        (draw_pair self keypoints img_copy threshold);
  mret img_copy.

(** *** Serialisation *)

Record person : Type := { pose_keypoints : list Q }.
Record pose_json : Type := { version : Q; people : list person }.

(** The body of [add_keypoints_to_json] once [predict] has returned
    [pose]; a tuple of three numbers is truthy, [None] is not. The
    missing value is an int and stays one in the list. *)
Definition keypoints_to_json (pose : list (option keypoint))
    (missing_val : Z) : pose_json :=
  let keypoints :=
    map (λ p : option keypoint,
           match p with
           | Some (x, y, prob) => [x; y; prob]
           | None => replicate 3 (inject_Z missing_val)
           end) pose in
  let keypoints := concat keypoints in
  {| version := 1.0%Q; people := [ {| pose_keypoints := keypoints |} ] |}.

(** [add_keypoints_to_json]; [predict] runs with its default threshold
    [0.05]. *)
Definition add_keypoints_to_json {R : Rounding} (self : topology)
    (output : ndarray4) (img_w img_h : Z) (missing_val : Z)
    : result pose_json :=
  pose ← predict self output img_w img_h (literal (5 # 100));
  mret (keypoints_to_json pose missing_val).

End OpenPose.

(** ** general/dir_utils.py *)

Module DirUtils.
Import Py.

(** [Path(a) / b / c], kept as its components. *)
Definition path : Type := list string.

(** What [random_split] does to the outside world, in order. The file
    system is represented by the history of the calls made on it. *)
Inductive event : Type :=
| Mkdir (dir : path)
| Copy2 (file : string) (des_dir : path)
| Move (file : string) (des_dir : path)
| Print (msg : string).

Abbreviation world := (list event).

(** A call on the outside world, recorded. The call is taken to
    succeed: a [mkdir], [copy2] or [move] that raises (a name already
    present at the destination, a directory among the files) is outside
    this embedding. *)
Definition emit (e : event) : M world unit := modify (λ w, w ++ [e]).

(** [assert cond, msg] *)
Definition assert (cond : bool) (msg : string) : M world unit :=
  if cond then mret tt else raise (AssertionError msg).

(** [random.shuffle(x)]: for [i] from [len(x) - 1] down to [1], swap
    [x[i]] with [x[j]] for a random [j] in [0..i]. The generator is a
    list of raw draws, one per call of [randbelow]. *)
Definition randbelow (draws : list nat) (n : nat) : nat :=
  hd 0%nat draws mod n.

Definition swap {A} (x : list A) (i j : nat) : list A :=
  match x !! i, x !! j with
  | Some xi, Some xj => <[j := xi]> (<[i := xj]> x)
  | _, _ => x
  end.

Fixpoint shuffle_from {A} (i : nat) (draws : list nat) (x : list A)
    : list A :=
  match i with
  | O => x
  | S i' =>
      let j := randbelow draws (i + 1) in
      shuffle_from i' (tl draws) (swap x i j)
  end.

Definition shuffle {A} (draws : list nat) (x : list A) : list A :=
  shuffle_from (length x - 1) draws x.

(** The nested helper [copy_files]. *)
Definition copy_files (files : list string) (des_dir : path) (move : bool)
    : M world unit :=
  let copy_func := if move then Move else Copy2 in
  for_each files (λ file, emit (copy_func file des_dir)).

(** [(fp[:a], fp[a:b], fp[b:])] *)
Definition slices_at (fp : list string) (a b : Z)
    : list string * list string * list string :=
  (slice fp None (Some a), slice fp (Some a) (Some b), slice fp (Some b) None).

Definition split_done (train val test : list string) : string :=
  "Split done: train-" +:+ pretty (length train) +:+
  ", val-" +:+ pretty (length val) +:+
  ", test-" +:+ pretty (length test).

(** [glob.glob(str(Path(input_path) / '**' / '*.*'), recursive=True)]:
    [glob] stands for the file system as [glob.glob] reads it, from a
    pattern to the paths that match. *)
Definition data_paths (glob : path → list string) (input_path : string)
    : list string :=
  glob [input_path; "**"; "*.*"].

Section splitting.
Context {R : Rounding}.

(** The two cut indices, [int(n * train_ratio)] and
    [int(n * (train_ratio + val_ratio))]. *)
Definition train_end (n : nat) (train_ratio : Q) : Z :=
  int (fmul (float (Z.of_nat n)) train_ratio).
Definition val_end (n : nat) (train_ratio val_ratio : Q) : Z :=
  int (fmul (float (Z.of_nat n)) (fadd train_ratio val_ratio)).

(** The tuple assigned to [train, val, test]. *)
Definition slices (fp : list string) (n : nat) (train_ratio val_ratio : Q)
    : list string * list string * list string :=
  slices_at fp (train_end n train_ratio) (val_end n train_ratio val_ratio).

(** [random_split]. [glob] is the file system as read by [glob.glob],
    [draws] the state of the random generator. *)
Definition random_split (glob : path → list string) (draws : list nat)
    (input_path output_path : string) (train_ratio val_ratio : Q)
    (move : bool) (name : string) : M world unit :=
  _ ← assert (le (fadd train_ratio val_ratio) 1)
        "Total of train, val ratio must <= 1";
  let fp := data_paths glob input_path in
  let n := length fp in
  _ ← assert (bool_decide (0 < n)%nat) "Empty data folder";
  let train_path := [output_path; "train"; name] in
  _ ← emit (Mkdir train_path);
  let val_path := [output_path; "val"; name] in
  _ ← emit (Mkdir val_path);
  let test_path := [output_path; "test"; name] in
  _ ← (if bool_decide (val_end n train_ratio val_ratio < Z.of_nat n)%Z
       then emit (Mkdir test_path) else mret tt);
  let fp := shuffle draws fp in
  let '(train, val, test) := slices fp n train_ratio val_ratio in
  _ ← copy_files train train_path move;
  _ ← copy_files val val_path move;
  _ ← (if bool_decide (0 < length test)%nat
       then copy_files test test_path move else mret tt);
  emit (Print (split_done train val test)).

End splitting.

End DirUtils.

(** ** general/dir_utils.py: [get_data_paths] *)

Module DataPaths.
Import Py DirUtils.
Import Stdlib.Strings.Ascii.

(** The exceptions [get_data_paths] raises; an exception raised
    [from e] keeps [e] as its cause. *)
Inductive error : Type :=
| FileNotFoundError (msg : string)
| Exception (msg : string) (cause : error).

(** [str(e)] *)
Definition str_error (e : error) : string :=
  match e with
  | FileNotFoundError msg => msg
  | Exception msg _ => msg
  end.

Inductive outcome (A : Type) : Type :=
| Returns (a : A)
| Raises (e : error).
Arguments Returns {A} a.
Arguments Raises {A} e.

(** [s.split(sep)] for a separator of one character: the pieces of [s]
    between the occurrences of [sep], at least one. *)
Fixpoint split (sep : ascii) (s : string) : list string :=
  match s with
  | EmptyString => [EmptyString]
  | String c s' =>
      if Ascii.eqb c sep then EmptyString :: split sep s'
      else match split sep s' with
           | piece :: pieces => String c piece :: pieces
           | [] => [String c EmptyString]
           end
  end.

(** [xs[-1]] on the list [split] returns, which is never empty. *)
Definition last_piece (xs : list string) : string := default EmptyString (last xs).

(** [str.lower] on a string of ASCII characters. *)
Definition ascii_lower_char (c : ascii) : ascii :=
  let n := nat_of_ascii c in
  if (65 <=? n)%nat && (n <=? 90)%nat then ascii_of_nat (n + 32) else c.
Fixpoint ascii_lower (s : string) : string :=
  match s with
  | EmptyString => EmptyString
  | String c s' => String (ascii_lower_char c) (ascii_lower s')
  end.

(** [dir if isinstance(dir, list) else [dir]] *)
Definition dirs (dir : string + list string) : list string :=
  match dir with
  | inl d => [d]
  | inr ds => ds
  end.

(** [sorted]: strings are compared character by character. *)
Definition sorted (xs : list string) : list string := merge_sort String.le xs.

Section get_data_paths.

(** The file system and the library calls: [Path(d).is_dir()],
    [glob.glob], [str(Path(d))], the text [f'{dir}'] of the argument
    and [str.lower]. *)
Variable is_dir : string → bool.
Variable glob : path → list string.
Variable str_Path : string → string.
Variable str_dir : string + list string → string.
Variable lower : string → string.

(** [x.split('.')[-1].lower()] *)
Definition extension (x : string) : string :=
  lower (last_piece (split "."%char x)).

(** The loop over the directories, from the files [f] found so far. *)
Fixpoint collect (prefix : string) (ds : list string) (f : list string)
    : outcome (list string) :=
  match ds with
  | [] => Returns f
  | d :: ds' =>
      if is_dir d then collect prefix ds' (f ++ data_paths glob d)
      else Raises (FileNotFoundError
                     (prefix +:+ str_Path d +:+ " does not exist"))
  end.

Definition get_data_paths (dir : string + list string)
    (data_formats : list string) (prefix : string)
    : outcome (list string) :=
  match collect prefix (dirs dir) [] with
  | Returns f =>
      Returns (sorted (filter (λ x, extension x ∈ data_formats) f))
  | Raises e =>
      Raises (Exception
                (prefix +:+ "Error loading data from " +:+ str_dir dir +:+
                 ": " +:+ str_error e) e)
  end.

End get_data_paths.

End DataPaths.

(** ** Single expressions in IEEE binary64 *)

Module Binary64.

(** An int used where a float is expected (exact below [2^53]). *)
Definition of_int (n : Z) : float :=
  if (0 <=? n)%Z then PrimFloat.of_uint63 (Uint63.of_Z n)
  else (- PrimFloat.of_uint63 (Uint63.of_Z (- n)))%float.

(** [int(x)] on a binary64 value; [None] stands for the [ValueError]
    and [OverflowError] raised on NaN and the infinities. *)
Definition int (x : float) : option Z :=
  match Prim2SF x with
  | S754_zero _ => Some 0%Z
  | S754_finite s m e =>
      let a := match e with
               | Z0 => Zpos m
               | Zpos p => Z.shiftl (Zpos m) (Zpos p)
               | Zneg p => Z.shiftr (Zpos m) (Zpos p)
               end in
      Some (if s then Z.opp a else a)
  | _ => None
  end.

(** [int(n * train_ratio)] and [int(n * (train_ratio + val_ratio))] of
    [random_split]. *)
Definition train_end (n : Z) (train_ratio : float) : option Z :=
  int (of_int n * train_ratio)%float.
Definition val_end (n : Z) (train_ratio val_ratio : float) : option Z :=
  int (of_int n * (train_ratio + val_ratio))%float.

(** [(img_size[0] * point[0]) / W] of [_parse_keypoints]. *)
Definition rescale (img_dim loc map_dim : Z) : float :=
  (of_int (img_dim * loc) / of_int map_dim)%float.

(** The test [x / imageWidth == colMax / W] on the rescaled
    coordinate. *)
Definition ratio_kept (img_dim loc map_dim : Z) : bool :=
  (rescale img_dim loc map_dim / of_int img_dim
   =? of_int loc / of_int map_dim)%float.

End Binary64.

(** * Properties *)

(** ** Python primitives *)

Module PyFacts.
Import Py.

Lemma gt_true (a b : Q) : gt a b = true ↔ (b < a)%Q.
Proof.
  unfold gt. rewrite negb_true_iff, <- not_true_iff_false, Qle_bool_iff.
  split; [apply Qnot_le_lt | apply Qlt_not_le].
Qed.

Lemma gt_false (a b : Q) : gt a b = false ↔ (a <= b)%Q.
Proof. unfold gt. rewrite negb_false_iff. apply Qle_bool_iff. Qed.

Lemma le_true (a b : Q) : le a b = true ↔ (a <= b)%Q.
Proof. apply Qle_bool_iff. Qed.

Lemma le_false (a b : Q) : le a b = false ↔ (b < a)%Q.
Proof.
  unfold le. rewrite <- not_true_iff_false, Qle_bool_iff.
  split; [apply Qnot_le_lt | apply Qlt_not_le].
Qed.

(** On a non-negative float [int] is the floor. *)
Lemma int_floor (x : Q) : (0 <= x)%Q → int x = Qfloor x.
Proof.
  destruct x as [n d]. unfold Qle, int, Qfloor. simpl. intros Hn.
  apply Z.quot_div_nonneg; lia.
Qed.

Lemma int_nonneg (x : Q) : (0 <= x)%Q → (0 <= int x)%Z.
Proof.
  destruct x as [n d]. unfold Qle, int. simpl. intros Hn.
  apply Z.quot_pos; lia.
Qed.

Lemma int_mono (x y : Q) : (0 <= x)%Q → (x <= y)%Q → (int x <= int y)%Z.
Proof.
  intros Hx Hxy. rewrite (int_floor x), (int_floor y).
  - by apply Qfloor_resp_le.
  - by apply Qle_trans with x.
  - done.
Qed.

Lemma int_inject_Z (z : Z) : int (inject_Z z) = z.
Proof. unfold int. simpl. apply Z.quot_1_r. Qed.

(** Exact arithmetic is a rounding. *)
Lemma exact_laws : RoundingLaws (R := exact).
Proof. split; [by intros x y | reflexivity]. Qed.

Section rounding.
Context {R : Rounding} {L : RoundingLaws}.

Lemma round_nonneg (x : Q) : (0 <= x)%Q → (0 <= round x)%Q.
Proof.
  intros Hx. apply Qle_trans with (round 0).
  - rewrite round_0. apply Qle_refl.
  - by apply round_mono.
Qed.

Lemma float_nonneg (n : nat) : (0 <= float (Z.of_nat n))%Q.
Proof.
  apply round_nonneg. change 0%Q with (inject_Z 0).
  rewrite <- Zle_Qle. lia.
Qed.

Lemma fmul_nonneg (a b : Q) : (0 <= a)%Q → (0 <= b)%Q → (0 <= fmul a b)%Q.
Proof. intros Ha Hb. by apply round_nonneg, Qmult_le_0_compat. Qed.

Lemma fadd_nonneg (a b : Q) : (0 <= a)%Q → (0 <= b)%Q → (0 <= fadd a b)%Q.
Proof.
  intros Ha Hb. apply round_nonneg.
  rewrite <- (Qplus_0_r 0). by apply Qplus_le_compat.
Qed.

(** Adding a non-negative float to a float does not make it smaller. *)
Lemma fadd_le_l (a b : Q) : representable a → (0 <= b)%Q → (a <= fadd a b)%Q.
Proof.
  intros Ha Hb. unfold representable in Ha. rewrite <- Ha at 1.
  apply round_mono. rewrite <- (Qplus_0_r a) at 1. by apply Qplus_le_r.
Qed.

(** Multiplication by a non-negative float is monotone. *)
Lemma fmul_le_r (c a b : Q) :
  (0 <= c)%Q → (a <= b)%Q → (fmul c a <= fmul c b)%Q.
Proof.
  intros Hc Hab. apply round_mono.
  rewrite !(Qmult_comm c). by apply Qmult_le_compat_r.
Qed.

End rounding.

Lemma rmap_Forall2 {A B} (f : A → result B) xs ys :
  rmap f xs = Ok ys ↔ Forall2 (λ x y, f x = Ok y) xs ys.
Proof.
  revert ys. induction xs as [|x xs IH]; intros ys; simpl.
  - split; [intros [= <-]; constructor | by inversion 1].
  - destruct (f x) as [y|e] eqn:Hx; simpl.
    + destruct (rmap f xs) as [ys'|e] eqn:Hxs; simpl.
      * split.
        -- intros [= <-]. constructor; [done | by apply IH].
        -- inversion 1 as [|? y' ? ys'' Hy Hys]; subst.
           rewrite Hx in Hy. injection Hy as <-.
           apply IH in Hys. by injection Hys as <-.
      * split; [done |].
        inversion 1 as [|? y' ? ys'' Hy Hys]; subst.
        by apply IH in Hys.
    + split; [done |]. inversion 1 as [|? y' ? ys'' Hy Hys]; subst.
      by rewrite Hx in Hy.
Qed.

(** A comprehension whose body never raises on the list returns. *)
Lemma rmap_total {A B} (f : A → result B) xs :
  (∀ x, x ∈ xs → ∃ y, f x = Ok y) → ∃ ys, rmap f xs = Ok ys.
Proof.
  induction xs as [|x xs IH]; intros Hf; simpl; [by eexists |].
  destruct (Hf x) as [y ->]; [left |]. simpl.
  destruct IH as [ys ->]; [intros; apply Hf; by right |]. by eexists.
Qed.

End PyFacts.

(** ** The maximum search *)

Module MinMaxLocFacts.
Import Py OpenPose PyFacts.

Section scan.
Variable m : mat.

Definition val (rc : nat * nat) : Q := cell m rc.1 rc.2.

(** [e] holds the maximum of the positions [seen], at its first
    occurrence. *)
Record max_of (seen : list (nat * nat)) (e : extrema) : Prop := {
  max_val_at : maxVal e = cell m (maxLoc e).2 (maxLoc e).1;
  max_bound : ∀ rc, rc ∈ seen → (val rc <= maxVal e)%Q;
  max_first : ∃ before after,
    seen = before ++ ((maxLoc e).2, (maxLoc e).1) :: after ∧
    ∀ rc, rc ∈ before → (val rc < maxVal e)%Q
}.

Lemma visit_maxVal e rc :
  maxVal (visit m e rc) =
    if gt (val rc) (maxVal e) then val rc else maxVal e.
Proof.
  unfold visit, val.
  destruct (gt (minVal e) _); simpl; by destruct (gt _ (maxVal e)).
Qed.

Lemma visit_maxLoc e rc :
  maxLoc (visit m e rc) =
    if gt (val rc) (maxVal e) then (rc.2, rc.1) else maxLoc e.
Proof.
  unfold visit, val.
  destruct (gt (minVal e) _); simpl; by destruct (gt _ (maxVal e)).
Qed.

Lemma visit_max_of seen e rc :
  max_of seen e → max_of (seen ++ [rc]) (visit m e rc).
Proof.
  intros [Hat Hbound (before & after & Hseen & Hfirst)].
  destruct (gt (val rc) (maxVal e)) eqn:Hgt.
  - split; rewrite ?visit_maxVal, ?visit_maxLoc, Hgt;
      apply gt_true in Hgt.
    + by destruct rc.
    + intros rc' [Hin | ->%list_elem_of_singleton]%elem_of_app.
      * apply Qle_trans with (maxVal e); [by apply Hbound |].
        by apply Qlt_le_weak.
      * apply Qle_refl.
    + exists seen, []. split; [by destruct rc |].
      intros rc' Hin. eapply Qle_lt_trans; [by apply Hbound | done].
  - split; rewrite ?visit_maxVal, ?visit_maxLoc, Hgt;
      apply gt_false in Hgt.
    + done.
    + intros rc' [Hin | ->%list_elem_of_singleton]%elem_of_app;
        [by apply Hbound | done].
    + exists before, (after ++ [rc]). split; [| done].
      by rewrite Hseen, <- app_assoc.
Qed.

Lemma foldl_visit_max_of rest : ∀ seen e,
  max_of seen e → max_of (seen ++ rest) (foldl (visit m) e rest).
Proof.
  induction rest as [|rc rest IH]; intros seen e He; simpl.
  - by rewrite app_nil_r.
  - replace (seen ++ rc :: rest) with ((seen ++ [rc]) ++ rest)
      by by rewrite <- app_assoc.
    apply IH. by apply visit_max_of.
Qed.

Lemma ofs2idx_flat r c :
  (c < cols m)%nat → ofs2idx m (r * cols m + c) = (r, c).
Proof.
  intros Hc. unfold ofs2idx. f_equal.
  - symmetry. apply (Nat.div_unique _ _ _ c); lia.
  - symmetry. apply (Nat.mod_unique _ _ r); lia.
Qed.

Lemma scan_order_lookup r c :
  (r < rows m)%nat → (c < cols m)%nat →
  scan_order m !! (r * cols m + c)%nat = Some (r, c).
Proof.
  intros Hr Hc. unfold scan_order.
  rewrite list_lookup_fmap, lookup_seq_lt by nia.
  simpl. by rewrite ofs2idx_flat.
Qed.

Lemma scan_order_lookup_inv i r c :
  scan_order m !! i = Some (r, c) →
  (r < rows m ∧ c < cols m)%nat ∧ i = (r * cols m + c)%nat.
Proof.
  unfold scan_order. rewrite list_lookup_fmap.
  destruct (seq 0 _ !! i) as [j|] eqn:Hj; [| done].
  apply lookup_seq in Hj as [-> Hi]. simpl. intros [= <- <-].
  assert (0 < cols m)%nat as Hc by nia.
  pose proof (Nat.div_mod_eq i (cols m)).
  pose proof (Nat.mod_upper_bound i (cols m)).
  split; [split |]; [| lia | lia].
  apply Nat.Div0.div_lt_upper_bound. lia.
Qed.

Lemma elem_of_scan_order r c :
  (r, c) ∈ scan_order m ↔ (r < rows m ∧ c < cols m)%nat.
Proof.
  rewrite list_elem_of_lookup. split.
  - by intros [i [? _]%scan_order_lookup_inv].
  - intros [Hr Hc]. eexists. by apply scan_order_lookup.
Qed.

(** What comes before a position in scan order: the rows above it and
    the entries to its left in its own row. *)
Lemma scan_order_before before after r c r' c' :
  scan_order m = before ++ (r, c) :: after →
  (r' < r ∨ r' = r ∧ c' < c)%nat → (c' < cols m)%nat →
  (r', c') ∈ before.
Proof.
  intros Hscan Hlt Hc'.
  assert (scan_order m !! length before = Some (r, c)) as Hat.
  { rewrite Hscan. by apply list_lookup_middle. }
  apply scan_order_lookup_inv in Hat as [[Hr Hc] Hlen].
  assert (scan_order m !! (r' * cols m + c')%nat = Some (r', c')) as Hat'.
  { apply scan_order_lookup; lia. }
  rewrite Hscan, lookup_app_l in Hat' by nia.
  by apply list_elem_of_lookup_2 in Hat'.
Qed.

(** On a non-empty matrix [minMaxLoc] returns, and what it returns as
    the maximum is the first largest entry in scan order. *)
Lemma minMaxLoc_max :
  (0 < rows m)%nat → (0 < cols m)%nat →
  ∃ e, minMaxLoc m = Ok e ∧ max_of (scan_order m) e.
Proof.
  intros Hr Hc. unfold minMaxLoc.
  destruct (scan_order m) as [|rc rest] eqn:Hscan.
  - assert ((0, 0)%nat ∈ scan_order m) as Hin
      by by apply elem_of_scan_order.
    rewrite Hscan in Hin. by apply elem_of_nil in Hin.
  - eexists. split; [done |].
    apply (foldl_visit_max_of rest [rc]).
    split; simpl.
    + done.
    + intros rc' ->%list_elem_of_singleton. apply Qle_refl.
    + exists [], []. split; [by destruct rc |].
      intros rc' Hin. by apply elem_of_nil in Hin.
Qed.

Lemma max_of_in_range e :
  max_of (scan_order m) e →
  ((maxLoc e).2 < rows m ∧ (maxLoc e).1 < cols m)%nat.
Proof.
  intros [_ _ (before & after & Hseen & _)].
  apply elem_of_scan_order. rewrite Hseen.
  apply elem_of_app. right. left.
Qed.

End scan.

End MinMaxLocFacts.

(** ** Keypoint extraction *)

Module KeypointFacts.
Import Py OpenPose PyFacts MinMaxLocFacts.

(** The shape [_parse_keypoints] expects of the network output: at
    least one image, a channel for every entry of [BODY_PARTS], and a
    non-empty confidence map. *)
Definition well_formed (self : topology) (v : ndarray4) : Prop :=
  (0 < dim0 v ∧ size (BODY_PARTS self) ≤ dim1 v ∧
   0 < dim2 v ∧ 0 < dim3 v)%nat.

(** [mx] is the largest entry of the confidence map of channel [idx]
    of the first image. *)
Definition channel_max (v : ndarray4) (idx : nat) (mx : Q) : Prop :=
  (∃ r c, (r < dim2 v)%nat ∧ (c < dim3 v)%nat ∧ at4 v 0 idx r c = mx) ∧
  (∀ r c, (r < dim2 v)%nat → (c < dim3 v)%nat → (at4 v 0 idx r c <= mx)%Q).

(** [(rowMax, colMax)] is where channel [idx] first reaches its largest
    entry [prob], rows scanned from the top and each row from the
    left. *)
Definition first_max_at (v : ndarray4) (idx rowMax colMax : nat) (prob : Q)
    : Prop :=
  (rowMax < dim2 v)%nat ∧ (colMax < dim3 v)%nat ∧
  at4 v 0 idx rowMax colMax = prob ∧
  (∀ r c, (r < dim2 v)%nat → (c < dim3 v)%nat →
          (at4 v 0 idx r c <= prob)%Q) ∧
  (∀ r c, (r < rowMax ∨ r = rowMax ∧ c < colMax)%nat → (c < dim3 v)%nat →
          (at4 v 0 idx r c < prob)%Q).

Lemma first_max_at_channel_max v idx r c prob :
  first_max_at v idx r c prob → channel_max v idx prob.
Proof. intros (? & ? & ? & ? & _). split; [by exists r, c | done]. Qed.

(** Two maxima of one channel are equal as numbers. *)
Lemma channel_max_unique v idx mx mx' :
  channel_max v idx mx → channel_max v idx mx' → (mx == mx')%Q.
Proof.
  intros [(r & c & ? & ? & <-) Hle] [(r' & c' & ? & ? & <-) Hle'].
  apply Qle_antisym; auto.
Qed.

Section extraction.
Context {R : Rounding}.

(** The entry computed for one channel. *)
Definition entry (img_size : Z * Z) (threshold : Q) (H W : nat)
    (rowMax colMax : nat) (prob : Q) : option keypoint :=
  if gt prob threshold
  then Some (round (inject_Z (img_size.1 * Z.of_nat colMax)
                     / inject_Z (Z.of_nat W)),
             round (inject_Z (img_size.2 * Z.of_nat rowMax)
                     / inject_Z (Z.of_nat H)),
             prob)
  else None.

Lemma parse_channel_spec self v img_size threshold idx :
  well_formed self v → (idx < size (BODY_PARTS self))%nat →
  ∃ rowMax colMax prob,
    first_max_at v idx rowMax colMax prob ∧
    parse_channel v img_size threshold (dim2 v) (dim3 v) idx =
      Ok (entry img_size threshold (dim2 v) (dim3 v) rowMax colMax prob).
Proof.
  intros (H0 & H1 & H2 & H3) Hidx. unfold parse_channel, plane.
  rewrite decide_True by lia. simpl.
  set (m := {| rows := dim2 v; cols := dim3 v; cell := at4 v 0 idx |}).
  destruct (minMaxLoc_max m) as (e & -> & He); [done | done |].
  simpl. unfold truediv. rewrite !decide_False by lia. simpl.
  destruct (max_of_in_range m e He) as [Hr Hc].
  destruct He as [Hat Hbound (before & after & Hscan & Hfirst)].
  exists (maxLoc e).2, (maxLoc e).1, (maxVal e).
  split; [| done]. repeat split; try done.
  - intros r c Hr' Hc'. apply (Hbound (r, c)).
    by apply elem_of_scan_order.
  - intros r c Hlt Hc'. apply (Hfirst (r, c)).
    by apply (scan_order_before m before after (maxLoc e).2 (maxLoc e).1).
Qed.

Lemma parse_keypoints_spec self v img_size threshold :
  well_formed self v →
  ∃ points,
    _parse_keypoints self v img_size threshold = Ok points ∧
    length points = size (BODY_PARTS self) ∧
    ∀ idx, (idx < size (BODY_PARTS self))%nat →
      ∃ rowMax colMax prob,
        first_max_at v idx rowMax colMax prob ∧
        points !! idx =
          Some (entry img_size threshold (dim2 v) (dim3 v)
                  rowMax colMax prob).
Proof.
  intros Hwf. unfold _parse_keypoints.
  destruct (rmap_total
              (parse_channel v img_size threshold (dim2 v) (dim3 v))
              (seq 0 (size (BODY_PARTS self)))) as [points Hpoints].
  { intros idx [_ Hidx]%elem_of_seq.
    destruct (parse_channel_spec self v img_size threshold idx)
      as (r & c & p & _ & ->); [done | lia |]. by eexists. }
  exists points. split; [done |].
  apply rmap_Forall2 in Hpoints.
  pose proof (Forall2_length _ _ _ Hpoints) as Hlen.
  rewrite length_seq in Hlen. split; [done |].
  intros idx Hidx.
  destruct (parse_channel_spec self v img_size threshold idx)
    as (r & c & p & Hmax & Hentry); [done | done |].
  exists r, c, p. split; [done |].
  destruct (Forall2_lookup_l _ _ _ idx idx Hpoints) as (y & Hy & Hf).
  { by apply lookup_seq_lt. }
  rewrite Hy. congruence.
Qed.

(** A run that returns was given a well-formed input, unless the
    predictor has no channel to look at. *)
Lemma parse_keypoints_Ok_inv self v img_size threshold points :
  _parse_keypoints self v img_size threshold = Ok points →
  size (BODY_PARTS self) = 0%nat ∨ well_formed self v.
Proof.
  unfold _parse_keypoints. intros Hrun%rmap_Forall2.
  destruct (size (BODY_PARTS self)) as [|n] eqn:Hsize; [by left | right].
  destruct (Forall2_lookup_l _ _ _ n n Hrun) as (y & _ & Hy).
  { apply lookup_seq_lt. lia. }
  unfold parse_channel, plane in Hy.
  destruct (decide (0 < dim0 v ∧ n < dim1 v)%nat) as [[H0 H1]|]; [| done].
  simpl in Hy. unfold minMaxLoc, scan_order in Hy. simpl in Hy.
  destruct (dim2 v * dim3 v)%nat as [|k] eqn:Hk; [done |].
  unfold well_formed. rewrite Hsize. nia.
Qed.

Lemma parse_keypoints_returns self v img_size threshold points :
  _parse_keypoints self v img_size threshold = Ok points →
  length points = size (BODY_PARTS self) ∧
  ∀ idx, (idx < size (BODY_PARTS self))%nat →
    ∃ rowMax colMax prob,
      first_max_at v idx rowMax colMax prob ∧
      points !! idx =
        Some (entry img_size threshold (dim2 v) (dim3 v)
                rowMax colMax prob).
Proof.
  intros Hrun.
  destruct (parse_keypoints_Ok_inv _ _ _ _ _ Hrun) as [Hzero | Hwf].
  - split; [| intros idx; lia].
    unfold _parse_keypoints in Hrun. apply rmap_Forall2 in Hrun.
    apply Forall2_length in Hrun. by rewrite length_seq in Hrun.
  - destruct (parse_keypoints_spec self v img_size threshold Hwf)
      as (points' & Hrun' & Hlen & Hall).
    assert (points' = points) as -> by congruence. done.
Qed.

Lemma entry_Some img_size threshold H W r c prob k :
  entry img_size threshold H W r c prob = Some k →
  (threshold < prob)%Q ∧ prob_of k = prob.
Proof.
  unfold entry. destruct (gt prob threshold) eqn:Hgt; [| done].
  intros [= <-]. split; [by apply gt_true | done].
Qed.

Lemma entry_None img_size threshold H W r c prob :
  entry img_size threshold H W r c prob = None ↔ (prob <= threshold)%Q.
Proof.
  unfold entry. destruct (gt prob threshold) eqn:Hgt.
  - split; [done |]. apply gt_true in Hgt. intros Hle.
    by apply Qlt_not_le in Hgt.
  - split; [| done]. intros _. by apply gt_false.
Qed.

Lemma parse_keypoints_total self v img_size threshold :
  well_formed self v →
  ∃ points, _parse_keypoints self v img_size threshold = Ok points.
Proof.
  intros Hwf.
  destruct (parse_keypoints_spec self v img_size threshold Hwf)
    as (points & Hrun & _). by exists points.
Qed.

(** In a returned pose an entry is a keypoint exactly when the largest
    confidence of its channel is above the threshold. *)
Lemma returned_entries self v img_size threshold points :
  _parse_keypoints self v img_size threshold = Ok points →
  ∀ idx, (idx < size (BODY_PARTS self))%nat →
    ∃ mx, channel_max v idx mx ∧
      ((∃ k, points !! idx = Some (Some k)) ↔ (threshold < mx)%Q) ∧
      (∀ k, points !! idx = Some (Some k) →
            prob_of k = mx ∧ (threshold < prob_of k)%Q) ∧
      ((mx <= threshold)%Q → points !! idx = Some None).
Proof.
  intros Hrun idx Hidx.
  destruct (parse_keypoints_returns _ _ _ _ _ Hrun) as [_ Hall].
  destruct (Hall idx Hidx) as (r & c & mx & Hmax & Hidx').
  exists mx. split; [by eapply first_max_at_channel_max |].
  rewrite Hidx'. split; [split |]; [| | split].
  - intros [k [= Hk]]. by apply entry_Some in Hk as [? _].
  - intros Hlt.
    destruct (entry img_size threshold (dim2 v) (dim3 v) r c mx)
      as [k|] eqn:Hk; [by exists k |].
    apply entry_None in Hk. by apply Qlt_not_le in Hlt.
  - intros k [= Hk]. apply entry_Some in Hk as [? ->]. done.
  - intros Hle. f_equal. by apply entry_None.
Qed.

(** C1. For every score volume, image size and threshold, in the pose
    extraction returns a keypoint is present for a channel exactly when
    the channel's largest confidence is strictly above the threshold: a
    present keypoint carries that largest confidence, which exceeds the
    threshold, and a channel whose largest confidence is at most the
    threshold has the entry [None]. On a well-formed score volume
    extraction does return. *)
Theorem C1_emitted_iff_above_threshold
    (self : topology) (v : ndarray4) (img_size : Z * Z) (threshold : Q) :
  (well_formed self v →
   ∃ points, _parse_keypoints self v img_size threshold = Ok points) ∧
  ∀ points,
    _parse_keypoints self v img_size threshold = Ok points →
    ∀ idx, (idx < size (BODY_PARTS self))%nat →
      ∃ mx, channel_max v idx mx ∧
        ((∃ k, points !! idx = Some (Some k)) ↔ (threshold < mx)%Q) ∧
        (∀ k, points !! idx = Some (Some k) →
              prob_of k = mx ∧ (threshold < prob_of k)%Q) ∧
        ((mx <= threshold)%Q → points !! idx = Some None).
Proof.
  split; [apply parse_keypoints_total | apply returned_entries].
Qed.

(** C8 (amended). For every score volume, every keypoint present in the
    returned pose has as confidence the largest entry of its channel,
    first found at [(rowMax, colMax)], and as coordinates the linear
    rescaling of that location, as floating-point division returns it:
    x is the rounding of imageWidth * colMax / W and y the rounding of
    imageHeight * rowMax / H. The exact quotients keep the ratios
    (qx / imageWidth = colMax / W and qy / imageHeight = rowMax / H for
    an image of non-zero size), and in exact arithmetic x and y are
    these quotients. On a well-formed score volume extraction does
    return a pose. *)
Theorem C8_linear_rescaling
    (self : topology) (v : ndarray4) (img_w img_h : Z) (threshold : Q) :
  (well_formed self v →
   ∃ points, _parse_keypoints self v (img_w, img_h) threshold = Ok points) ∧
  ∀ points,
    _parse_keypoints self v (img_w, img_h) threshold = Ok points →
    ∀ idx x y prob, points !! idx = Some (Some (x, y, prob)) →
      ∃ rowMax colMax qx qy,
        first_max_at v idx rowMax colMax prob ∧
        x = round qx ∧ y = round qy ∧
        (qx == inject_Z img_w * inject_Z (Z.of_nat colMax)
                / inject_Z (Z.of_nat (dim3 v)))%Q ∧
        (qy == inject_Z img_h * inject_Z (Z.of_nat rowMax)
                / inject_Z (Z.of_nat (dim2 v)))%Q ∧
        (img_w ≠ 0%Z →
         (qx / inject_Z img_w
            == inject_Z (Z.of_nat colMax) / inject_Z (Z.of_nat (dim3 v)))%Q) ∧
        (img_h ≠ 0%Z →
         (qy / inject_Z img_h
            == inject_Z (Z.of_nat rowMax) / inject_Z (Z.of_nat (dim2 v)))%Q).
Proof.
  split; [apply parse_keypoints_total |].
  intros points Hrun idx x y prob Hk.
  destruct (parse_keypoints_returns _ _ _ _ _ Hrun) as [Hlen Hall].
  assert (idx < size (BODY_PARTS self))%nat as Hidx.
  { rewrite <- Hlen. by eapply lookup_lt_Some. }
  destruct (parse_keypoints_Ok_inv _ _ _ _ _ Hrun) as [? | Hwf]; [lia |].
  destruct (Hall idx Hidx) as (r & c & mx & Hmax & Hidx').
  assert (entry (img_w, img_h) threshold (dim2 v) (dim3 v) r c mx
          = Some (x, y, prob)) as Hentry.
  { apply (inj Some). rewrite <- Hidx'. exact Hk. }
  unfold entry in Hentry.
  destruct (gt mx threshold); [| done]. injection Hentry as <- <- <-.
  exists r, c. do 2 eexists. split; [done |].
  split; [reflexivity |]. split; [reflexivity |].
  destruct Hwf as (_ & _ & HH & HW). simpl.
  assert (¬ (inject_Z (Z.of_nat (dim3 v)) == 0)%Q) as HW'.
  { change 0%Q with (inject_Z 0). rewrite inject_Z_injective. lia. }
  assert (¬ (inject_Z (Z.of_nat (dim2 v)) == 0)%Q) as HH'.
  { change 0%Q with (inject_Z 0). rewrite inject_Z_injective. lia. }
  split; [| split; [| split]].
  - by rewrite inject_Z_mult.
  - by rewrite inject_Z_mult.
  - intros Hw. rewrite inject_Z_mult. field. split; [done |].
    change 0%Q with (inject_Z 0). by rewrite inject_Z_injective.
  - intros Hh. rewrite inject_Z_mult. field. split; [done |].
    change 0%Q with (inject_Z 0). by rewrite inject_Z_injective.
Qed.

(** C4 (amended). For every predictor and score volume, extraction
    processes every channel index below [len(BODY_PARTS)], the
    Background channel (the last index) included: the returned pose has
    one entry per entry of [BODY_PARTS], each present exactly when its
    channel's largest confidence exceeds the threshold, and this holds of
    the background entry too. On a well-formed score volume extraction
    does return a pose. *)
Theorem C4_background_channel_is_processed
    (p : predictor) (v : ndarray4) (img_size : Z * Z) (threshold : Q) :
  (well_formed (_init__model_infor p) v →
   ∃ points,
     _parse_keypoints (_init__model_infor p) v img_size threshold
     = Ok points) ∧
  ∀ points,
    _parse_keypoints (_init__model_infor p) v img_size threshold
    = Ok points →
    ∃ bg,
      length points = size (BODY_PARTS (_init__model_infor p)) ∧
      BODY_PARTS (_init__model_infor p) !! "Background" = Some bg ∧
      S bg = size (BODY_PARTS (_init__model_infor p)) ∧
      (∀ idx, (idx ≤ bg)%nat →
         ∃ mx, channel_max v idx mx ∧
           ((∃ k, points !! idx = Some (Some k)) ↔ (threshold < mx)%Q)) ∧
      (∀ mx, channel_max v bg mx → (threshold < mx)%Q →
         ∃ k, points !! bg = Some (Some k)).
Proof.
  split; [apply parse_keypoints_total |]. intros points Hrun.
  pose proof (returned_entries _ _ _ _ _ Hrun) as Hall.
  destruct (parse_keypoints_returns _ _ _ _ _ Hrun) as [Hlen _].
  assert (∃ bg, BODY_PARTS (_init__model_infor p) !! "Background" = Some bg ∧
                S bg = size (BODY_PARTS (_init__model_infor p)))
    as (bg & Hbg & Hsize).
  { destruct p; eexists; split; vm_compute; reflexivity. }
  exists bg. repeat split; try done.
  - intros idx Hidx. destruct (Hall idx) as (mx & Hmax & Hiff & _); [lia|].
    by exists mx.
  - intros mx Hmax Hlt.
    destruct (Hall bg) as (mx' & Hmax' & Hiff & _); [lia |].
    apply Hiff. by rewrite <- (channel_max_unique v bg mx mx').
Qed.

End extraction.

(** *** Sample inputs, in exact arithmetic *)

(** A 1 x 1 score volume with 19 channels, every confidence 1. *)
Definition unit_volume : ndarray4 :=
  {| dim0 := 1; dim1 := 19; dim2 := 1; dim3 := 1; at4 := λ _ _ _ _, 1%Q |}.

(** A 2 x 3 score volume with 57 channels; channel [c] holds
    [(c + row * col) / 10]. *)
Definition ramp_volume : ndarray4 :=
  {| dim0 := 1; dim1 := 57; dim2 := 2; dim3 := 3;
     at4 := λ _ c row col, (Z.of_nat (c + row * col) # 10)%Q |}.

Lemma well_formed_unit_volume : well_formed COCO unit_volume.
Proof. unfold well_formed. vm_compute. lia. Qed.

Lemma well_formed_ramp_volume : well_formed COCO ramp_volume.
Proof. unfold well_formed. vm_compute. lia. Qed.

(** C1 at the COCO predictor and [ramp_volume], channel 3. *)
Lemma C1_witness :
  well_formed COCO ramp_volume ∧
  ∃ points,
    _parse_keypoints (R := exact) COCO ramp_volume (640, 480)%Z 0.5%Q
    = Ok points ∧
    ∃ mx, channel_max ramp_volume 3 mx ∧
          ((mx <= 0.5)%Q → points !! 3%nat = Some None).
Proof.
  split; [apply well_formed_ramp_volume |].
  destruct (C1_emitted_iff_above_threshold (R := exact) COCO ramp_volume
              (640, 480)%Z 0.5%Q) as [Htotal Hall].
  destruct (Htotal well_formed_ramp_volume) as [points Hrun].
  exists points. split; [exact Hrun |].
  destruct (Hall points Hrun 3%nat) as (mx & Hmax & _ & _ & Hnone).
  - vm_compute. lia.
  - exists mx. split; [exact Hmax | exact Hnone].
Defined.

(** The pose extracted from [ramp_volume] for a 640 x 480 image. *)
Definition ramp_pose : list (option keypoint) :=
  Eval vm_compute in
    match _parse_keypoints (R := exact) COCO ramp_volume (640, 480)%Z 0.5%Q
    with
    | Ok points => points
    | Raise _ => []
    end.

(** C8 at the COCO predictor and [ramp_volume], channel 7: the maximum
    0.9 is at row 1, column 2, and 640 * 2 / 3 = 1280 / 3. *)
Lemma C8_witness :
  _parse_keypoints (R := exact) COCO ramp_volume (640, 480)%Z 0.5%Q
  = Ok ramp_pose ∧
  ramp_pose !! 7%nat = Some (Some (1280 # 3, 480 # 2, 9 # 10)%Q) ∧
  ∃ rowMax colMax qx,
    first_max_at ramp_volume 7 rowMax colMax (9 # 10) ∧
    (1280 # 3)%Q = round (Rounding := exact) qx ∧
    (qx / 640 == inject_Z (Z.of_nat colMax) / 3)%Q.
Proof.
  assert (_parse_keypoints (R := exact) COCO ramp_volume (640, 480)%Z 0.5%Q
          = Ok ramp_pose) as Hrun by (vm_compute; reflexivity).
  split; [exact Hrun |]. split; [reflexivity |].
  destruct (proj2 (C8_linear_rescaling (R := exact) COCO ramp_volume 640 480
                     0.5%Q)
              ramp_pose Hrun 7%nat (1280 # 3)%Q (480 # 2)%Q (9 # 10)%Q eq_refl)
    as (r & c & qx & qy & Hmax & Hx & _ & _ & _ & Hratio & _).
  exists r, c, qx. split; [exact Hmax |]. split; [exact Hx |].
  apply Hratio. lia.
Defined.

(** A 1 x 46 score volume with 19 channels, whose confidence is 1 in
    column 13 and 0 elsewhere. *)
Definition wide_volume : ndarray4 :=
  {| dim0 := 1; dim1 := 19; dim2 := 1; dim3 := 46;
     at4 := λ _ _ _ col, if decide (col = 13%nat) then 1%Q else 0%Q |}.

(** C8, as stated, fails in binary64: on [wide_volume] and a 640 pixel
    wide image the maximum of channel 0 is at column 13 and the keypoint
    is emitted; its coordinate [(640 * 13) / 46] is [180.8695652173913]
    in binary64, which divided by 640 gives [0.28260869565217395], while
    [13 / 46] is [0.2826086956521739]. *)
Lemma C8_counterexample :
  first_max_at wide_volume 0 0 13 1 ∧
  (∃ points y,
     _parse_keypoints (R := exact) COCO wide_volume (640, 480)%Z 0.05%Q
     = Ok points ∧
     points !! 0%nat
     = Some (Some (inject_Z (640 * 13) / inject_Z 46, y, 1)%Q)) ∧
  Binary64.rescale 640 13 46 = 0x1.69bd37a6f4deap+7%float ∧
  (Binary64.rescale 640 13 46 / Binary64.of_int 640)%float
  = 0x1.21642c8590b22p-2%float ∧
  (Binary64.of_int 13 / Binary64.of_int 46)%float
  = 0x1.21642c8590b21p-2%float ∧
  Binary64.ratio_kept 640 13 46 = false.
Proof.
  split; [| split; [| repeat split; vm_compute; reflexivity]].
  - unfold first_max_at. simpl.
    split; [lia |]. split; [lia |]. split; [reflexivity |]. split.
    + intros r c _ _. case_decide; discriminate.
    + intros r c [Hr | [_ Hc]] _; [lia |].
      case_decide; [lia | reflexivity].
  - do 2 eexists. split; vm_compute; reflexivity.
Qed.

(** The specification's statement that the background channel never
    yields a keypoint. *)
Definition background_skipped (self : topology) (v : ndarray4)
    (img_size : Z * Z) (threshold : Q) : Prop :=
  ∀ points bg,
    _parse_keypoints (R := exact) self v img_size threshold = Ok points →
    BODY_PARTS self !! "Background" = Some bg →
    points !! bg = Some None.

(** C4, as stated, fails: on the COCO predictor and a score volume whose
    confidences are all 1, the entry of the Background channel (index 18)
    is a keypoint. *)
Lemma C4_counterexample :
  ¬ background_skipped COCO unit_volume (640, 480)%Z 0.05%Q.
Proof.
  intros Hskip.
  eassert (_parse_keypoints (R := exact) COCO unit_volume (640, 480)%Z 0.05%Q = Ok _)
    as Hrun by (vm_compute; reflexivity).
  specialize (Hskip _ 18%nat Hrun eq_refl). vm_compute in Hskip.
  discriminate Hskip.
Qed.

(** The pose extracted from [unit_volume]. *)
Definition unit_pose : list (option keypoint) :=
  Eval vm_compute in
    match _parse_keypoints (R := exact) COCO unit_volume (640, 480)%Z 0.05%Q
    with
    | Ok points => points
    | Raise _ => []
    end.

(** C4 at the COCO predictor and [unit_volume]. *)
Lemma C4_witness :
  _parse_keypoints (R := exact) COCO unit_volume (640, 480)%Z 0.05%Q
  = Ok unit_pose ∧
  ∃ bg,
    BODY_PARTS COCO !! "Background" = Some bg ∧
    (∀ mx, channel_max unit_volume bg mx → (0.05 < mx)%Q →
       ∃ k, unit_pose !! bg = Some (Some k)).
Proof.
  assert (_parse_keypoints (R := exact) COCO unit_volume (640, 480)%Z 0.05%Q
          = Ok unit_pose) as Hrun by (vm_compute; reflexivity).
  split; [exact Hrun |].
  destruct (proj2 (C4_background_channel_is_processed (R := exact)
                     COCOOpenPosePredictor unit_volume (640, 480)%Z 0.05%Q)
              unit_pose Hrun)
    as (bg & _ & Hbg & _ & _ & Hemit).
  exists bg. split; [exact Hbg | exact Hemit].
Defined.

End KeypointFacts.

(** ** The skeleton renderer *)

Module RenderFacts.
Import Py OpenPose PyFacts.

Lemma draw_on_nil im : draw_on im [] = im.
Proof. destruct im. unfold draw_on. simpl. by rewrite app_nil_r. Qed.

Lemma draw_on_app im ds ds' :
  draw_on (draw_on im ds) ds' = draw_on im (ds ++ ds').
Proof. unfold draw_on. simpl. by rewrite app_assoc. Qed.

(** A computation that writes to no object but [r], on which it only
    draws; it may raise part-way. *)
Definition paints_only {A} (r : ref) (m : M heap A) : Prop :=
  ∀ (h : heap) im, h !! r = Some im →
    ∃ ds, (m h).1 = <[r := draw_on im ds]> h.

Lemma paints_only_lift {A} r (x : result A) : paints_only r (lift x).
Proof.
  intros h im Hr. exists []. simpl.
  by rewrite draw_on_nil, insert_id.
Qed.

Lemma paints_only_ret {A} r (x : A) : paints_only r (mret x).
Proof. apply (paints_only_lift r (Ok x)). Qed.

Lemma paints_only_paint r d : paints_only r (paint r d).
Proof. intros h im Hr. exists [d]. unfold paint. by rewrite Hr. Qed.

Lemma paints_only_bind {A B} r (m : M heap A) (k : A → M heap B) :
  paints_only r m → (∀ a, paints_only r (k a)) → paints_only r (m ≫= k).
Proof.
  intros Hm Hk h im Hr. destruct (Hm h im Hr) as [ds Hds].
  unfold mbind, M_bind, bind.
  destruct (m h) as [h1 [a | e]]; simpl in *; subst h1.
  - destruct (Hk a (<[r := draw_on im ds]> h) (draw_on im ds))
      as [ds' Hds']; [by rewrite lookup_insert_eq |].
    exists (ds ++ ds'). by rewrite Hds', insert_insert_eq, draw_on_app.
  - by exists ds.
Qed.

Lemma paints_only_for_each {A} r (xs : list A) (body : A → M heap unit) :
  (∀ x, paints_only r (body x)) → paints_only r (for_each xs body).
Proof.
  intros Hbody. induction xs as [|x xs IH]; simpl.
  - apply (paints_only_ret r tt).
  - apply (paints_only_bind r (body x) (λ _, for_each xs body)); auto.
Qed.

Ltac paints_only :=
  repeat first
    [ apply paints_only_paint
    | apply paints_only_lift
    | apply paints_only_ret
    | apply paints_only_for_each; intros
    | apply paints_only_bind; [| intros]
    | match goal with
      | |- paints_only _ (match ?x with _ => _ end) => destruct x
      | |- paints_only _ (if ?x then _ else _) => destruct x
      end ].

Lemma paints_only_visualize_points self keypoints r put_text threshold :
  paints_only r (_visualize_points self keypoints r put_text threshold).
Proof. unfold _visualize_points. paints_only. Qed.

Lemma paints_only_draw_pair self keypoints r threshold pair :
  paints_only r (draw_pair self keypoints r threshold pair).
Proof. unfold draw_pair. paints_only. Qed.

Lemma visualize_points_returns_img self keypoints r put_text threshold h r' :
  (_visualize_points self keypoints r put_text threshold h).2 = Ok r' →
  r' = r.
Proof.
  unfold _visualize_points, mbind, M_bind, bind.
  destruct (for_each _ _ h) as [h1 [[] | e]]; simpl; [| done].
  by intros [= <-].
Qed.

(** What a run of [visualize] does to the store, whether it returns or
    raises: one new object, a copy of the input image with drawing
    calls applied; nothing else is written. *)
Lemma visualize_frame self keypoints img put_text threshold
      (h : heap) im :
  h !! img = Some im →
  ∃ ds res,
    visualize self keypoints img put_text threshold h
      = (<[fresh (dom h) := draw_on im ds]> h, res) ∧
    ∀ r, res = Ok r → r = fresh (dom h).
Proof.
  intros Himg. unfold visualize, mbind, M_bind, bind, copy.
  rewrite Himg. set (r := fresh (dom h)).
  pose proof (paints_only_visualize_points self keypoints r put_text
                threshold (<[r := im]> h) im) as [ds1 Hds1];
    [by rewrite lookup_insert_eq |].
  pose proof (visualize_points_returns_img self keypoints r put_text
                threshold (<[r := im]> h)) as Hret.
  destruct (_visualize_points self keypoints r put_text threshold
              (<[r := im]> h)) as [h1 [r1 | e]]; simpl in *; subst h1.
  - rewrite (Hret r1 eq_refl). rewrite insert_insert_eq.
    pose proof (paints_only_for_each r (POSE_PAIRS self)
                  (draw_pair self keypoints r threshold)
                  (paints_only_draw_pair self keypoints r threshold)
                  (<[r := draw_on im ds1]> h) (draw_on im ds1))
      as [ds2 Hds2]; [by rewrite lookup_insert_eq |].
    destruct (for_each (POSE_PAIRS self) _ _) as [h2 [[] | e]];
      simpl in *; subst h2; rewrite insert_insert_eq, draw_on_app;
      exists (ds1 ++ ds2); eexists; (split; [done |]).
    + by intros ? [= <-].
    + done.
  - rewrite insert_insert_eq. exists ds1. eexists. by split.
Qed.

(** C9. For every keypoint list, image and options, whatever the run
    does (return or raise), the caller's image and every other object
    already in the store are unchanged: all drawing lands on one newly
    created object, which starts as a copy of the input image, and the
    returned reference is that object. *)
Theorem C9_input_image_unchanged
    (self : topology) (keypoints : list (option keypoint)) (img : ref)
    (put_text : bool) (threshold : Q) (h : heap) (im : image) :
  h !! img = Some im →
  (visualize self keypoints img put_text threshold h).1 !! img = Some im ∧
  (∀ l x, h !! l = Some x →
     (visualize self keypoints img put_text threshold h).1 !! l = Some x) ∧
  ∃ r ds,
    h !! r = None ∧
    (visualize self keypoints img put_text threshold h).1
      = <[r := draw_on im ds]> h ∧
    ∀ r', (visualize self keypoints img put_text threshold h).2 = Ok r' →
          r' = r ∧ r' ≠ img.
Proof.
  intros Himg.
  destruct (visualize_frame self keypoints img put_text threshold h im Himg)
    as (ds & res & -> & Hret). simpl.
  assert (h !! fresh (dom h) = None) as Hfresh.
  { apply not_elem_of_dom, is_fresh. }
  assert (∀ l x, h !! l = Some x →
            (<[fresh (dom h) := draw_on im ds]> h) !! l = Some x) as Hold.
  { intros l x Hl. rewrite lookup_insert_ne; [done |].
    intros <-. congruence. }
  split; [by apply Hold |]. split; [done |].
  exists (fresh (dom h)), ds. split; [done |]. split; [done |].
  intros r' Hr'. apply Hret in Hr' as ->. split; [done |].
  intros <-. congruence.
Qed.

(** C9 on a store holding one image and a three-entry pose, too short
    for the COCO pairs: the run raises, and the input image is unchanged
    all the same. *)
Lemma C9_witness :
  let h : heap := {[ 5%nat := {| pixels := [[(0, 0, 0)%Z]]; drawn := [] |} ]} in
  let keypoints := [Some (1.5, 2.5, 0.9)%Q; None; Some (3, 4, 0.8)%Q] in
  h !! 5%nat = Some {| pixels := [[(0, 0, 0)%Z]]; drawn := [] |} ∧
  (visualize COCO keypoints 5%nat true 0%Q h).1 !! 5%nat
    = Some {| pixels := [[(0, 0, 0)%Z]]; drawn := [] |}.
Proof.
  split; [reflexivity |].
  apply (C9_input_image_unchanged COCO _ 5%nat true 0%Q
           {[ 5%nat := {| pixels := [[(0, 0, 0)%Z]]; drawn := [] |} ]}).
  reflexivity.
Defined.

(** *** What is drawn *)

(** The calls made for body part [i] by [_visualize_points]. *)
Definition marker (keypoints : list (option keypoint)) (put_text : bool)
    (threshold : Q) (i : nat) : list draw :=
  match keypoints !! i with
  | Some (Some (x, y, prob)) =>
      if gt prob threshold
      then Circle (int x, int y) 15 (0, 255, 255)%Z (-1) FILLED
           :: (if put_text
               then [PutText (pretty i) (int x, int y) FONT_HERSHEY_SIMPLEX
                       1.4%Q (0, 0, 255)%Z 3 LINE_AA]
               else [])
      else []
  | _ => []
  end.

(** Both endpoints of a pair are present with a confidence above the
    threshold. *)
Definition both_visible (self : topology)
    (keypoints : list (option keypoint)) (threshold : Q)
    (pair : string * string) (k1 k2 : keypoint) : Prop :=
  ∃ p1 p2,
    BODY_PARTS self !! pair.1 = Some p1 ∧
    BODY_PARTS self !! pair.2 = Some p2 ∧
    keypoints !! p1 = Some (Some k1) ∧
    keypoints !! p2 = Some (Some k2) ∧
    (threshold < prob_of k1)%Q ∧ (threshold < prob_of k2)%Q.

(** The segment joining two keypoints, as [visualize] draws it. *)
Definition segment (k1 k2 : keypoint) : draw :=
  Line (int k1.1.1, int k1.1.2) (int k2.1.1, int k2.1.2) (0, 255, 0)%Z 3
       LINE_8.

(** The calls made for one pair of [POSE_PAIRS]: its segment, or
    nothing. *)
Definition edge (self : topology) (keypoints : list (option keypoint))
    (threshold : Q) (pair : string * string) : list draw :=
  match BODY_PARTS self !! pair.1, BODY_PARTS self !! pair.2 with
  | Some p1, Some p2 =>
      match keypoints !! p1, keypoints !! p2 with
      | Some (Some k1), Some (Some k2) =>
          if gt (prob_of k1) threshold && gt (prob_of k2) threshold
          then [segment k1 k2] else []
      | _, _ => []
      end
  | _, _ => []
  end.

Lemma edge_visible self keypoints threshold pair k1 k2 :
  both_visible self keypoints threshold pair k1 k2 →
  edge self keypoints threshold pair = [segment k1 k2].
Proof.
  intros (p1 & p2 & Hp1 & Hp2 & Hk1 & Hk2 & Hgt1 & Hgt2). unfold edge.
  rewrite Hp1, Hp2, Hk1, Hk2.
  apply gt_true in Hgt1, Hgt2. by rewrite Hgt1, Hgt2.
Qed.

Lemma edge_hidden self keypoints threshold pair :
  (∀ k1 k2, ¬ both_visible self keypoints threshold pair k1 k2) →
  edge self keypoints threshold pair = [].
Proof.
  intros Hnot. unfold edge.
  destruct (BODY_PARTS self !! pair.1) as [p1|] eqn:Hp1; [| done].
  destruct (BODY_PARTS self !! pair.2) as [p2|] eqn:Hp2; [| done].
  destruct (keypoints !! p1) as [[k1|]|] eqn:Hk1; try done.
  destruct (keypoints !! p2) as [[k2|]|] eqn:Hk2; try done.
  destruct (gt (prob_of k1) threshold) eqn:Hgt1; [| done].
  destruct (gt (prob_of k2) threshold) eqn:Hgt2; [| done].
  destruct (Hnot k1 k2). exists p1, p2.
  by rewrite <- !gt_true.
Qed.

Lemma edge_inv self keypoints threshold pair d :
  d ∈ edge self keypoints threshold pair →
  ∃ k1 k2, both_visible self keypoints threshold pair k1 k2 ∧
           edge self keypoints threshold pair = [segment k1 k2].
Proof.
  intros Hd.
  assert (∃ k1 k2, both_visible self keypoints threshold pair k1 k2)
    as (k1 & k2 & Hvis).
  { revert Hd. unfold edge.
    destruct (BODY_PARTS self !! pair.1) as [p1|] eqn:Hp1;
      [| by intros ?%elem_of_nil].
    destruct (BODY_PARTS self !! pair.2) as [p2|] eqn:Hp2;
      [| by intros ?%elem_of_nil].
    destruct (keypoints !! p1) as [[k1|]|] eqn:Hk1;
      try by intros ?%elem_of_nil.
    destruct (keypoints !! p2) as [[k2|]|] eqn:Hk2;
      try by intros ?%elem_of_nil.
    destruct (gt (prob_of k1) threshold) eqn:Hgt1;
      [| by intros ?%elem_of_nil].
    destruct (gt (prob_of k2) threshold) eqn:Hgt2;
      [| by intros ?%elem_of_nil].
    intros _. exists k1, k2, p1, p2. by rewrite <- !gt_true. }
  exists k1, k2. split; [done | by apply edge_visible].
Qed.

(** A loop whose every turn draws [f x] on [r] draws their
    concatenation. *)
Lemma for_each_paint {A} (xs : list A) (body : A → M heap unit)
      (f : A → list draw) (r : ref) :
  (∀ x (h : heap) im, x ∈ xs → h !! r = Some im →
     body x h = (<[r := draw_on im (f x)]> h, Ok tt)) →
  ∀ (h : heap) im, h !! r = Some im →
    for_each xs body h = (<[r := draw_on im (flat_map f xs)]> h, Ok tt).
Proof.
  induction xs as [|x xs IH]; intros Hbody h im Hr; simpl.
  - unfold ret. by rewrite draw_on_nil, insert_id.
  - unfold bind. rewrite (Hbody x h im) by (done || left).
    rewrite (IH (λ x' h' im' Hin, Hbody x' h' im' (list_elem_of_further _ _ _ Hin))
                _ (draw_on im (f x))) by by rewrite lookup_insert_eq.
    by rewrite insert_insert_eq, draw_on_app.
Qed.

Lemma paint_nothing (h : heap) r im :
  h !! r = Some im →
  (mret tt : M heap unit) h = (<[r := draw_on im []]> h, Ok tt).
Proof.
  intros Hr. unfold mret, M_ret, ret. by rewrite draw_on_nil, insert_id.
Qed.

Lemma visualize_points_spec self keypoints r put_text threshold
      (h : heap) im :
  (size (BODY_PARTS self) ≤ length keypoints)%nat → h !! r = Some im →
  _visualize_points self keypoints r put_text threshold h =
    (<[r := draw_on im
             (flat_map (marker keypoints put_text threshold)
                       (seq 0 (size (BODY_PARTS self))))]> h, Ok r).
Proof.
  intros Hlen Hr. unfold _visualize_points, mbind, M_bind, bind.
  erewrite (for_each_paint _ _ (marker keypoints put_text threshold) r);
    [done | | done].
  clear h im Hr. intros i h im [_ Hi]%elem_of_seq Hr.
  unfold marker, lift, getitem.
  destruct (lookup_lt_is_Some_2 keypoints i) as [k Hk]; [lia |].
  rewrite Hk. destruct k as [[[x y] prob]|]; [| by apply paint_nothing].
  destruct (gt prob threshold); [| by apply paint_nothing].
  unfold paint at 1. rewrite Hr.
  destruct put_text; [| done].
  unfold paint. rewrite lookup_insert_eq, insert_insert_eq.
  by rewrite draw_on_app.
Qed.

(** The two names of a pair are keys of [BODY_PARTS], with indices
    below [bound]. *)
Definition pair_in_range (self : topology) (bound : nat)
    (pair : string * string) : Prop :=
  ∃ p1 p2,
    BODY_PARTS self !! pair.1 = Some p1 ∧
    BODY_PARTS self !! pair.2 = Some p2 ∧
    (p1 < bound)%nat ∧ (p2 < bound)%nat.

Lemma draw_pair_spec self keypoints r threshold pair (h : heap) im :
  pair_in_range self (length keypoints) pair → h !! r = Some im →
  draw_pair self keypoints r threshold pair h =
    (<[r := draw_on im (edge self keypoints threshold pair)]> h, Ok tt).
Proof.
  intros (p1 & p2 & Hp1 & Hp2 & Hlt1 & Hlt2) Hr.
  unfold draw_pair, edge, mbind, M_bind, bind, lift, dict_get, getitem.
  rewrite Hp1, Hp2.
  destruct (lookup_lt_is_Some_2 keypoints p1) as [k1 Hk1]; [done |].
  destruct (lookup_lt_is_Some_2 keypoints p2) as [k2 Hk2]; [done |].
  rewrite Hk1, Hk2.
  destruct k1 as [[[x1 y1] prob1]|], k2 as [[[x2 y2] prob2]|];
    unfold prob_of; simpl;
    try destruct (gt prob1 threshold); simpl; rewrite ?Hk2;
    try destruct (gt prob2 threshold); simpl;
    try by apply paint_nothing.
  unfold paint. by rewrite Hr.
Qed.

(** The whole run, when the pose is long enough and the tables are
    consistent. *)
Lemma visualize_spec self keypoints img put_text threshold (h : heap) im :
  (size (BODY_PARTS self) ≤ length keypoints)%nat →
  Forall (pair_in_range self (length keypoints)) (POSE_PAIRS self) →
  h !! img = Some im →
  visualize self keypoints img put_text threshold h =
    (<[fresh (dom h) :=
         draw_on im
           (flat_map (marker keypoints put_text threshold)
                     (seq 0 (size (BODY_PARTS self))) ++
            flat_map (edge self keypoints threshold) (POSE_PAIRS self))]> h,
     Ok (fresh (dom h))).
Proof.
  intros Hlen Hpairs Himg. unfold visualize.
  unfold mbind at 1, M_bind at 1, bind at 1, copy. rewrite Himg.
  set (r := fresh (dom h)).
  unfold mbind at 1, M_bind at 1, bind at 1.
  rewrite (visualize_points_spec self keypoints r put_text threshold
             _ im Hlen) by by rewrite lookup_insert_eq.
  rewrite insert_insert_eq.
  unfold mbind, M_bind, bind.
  erewrite (for_each_paint _ _ (edge self keypoints threshold) r).
  - by rewrite insert_insert_eq, draw_on_app.
  - intros pair h' im' Hin Hr. apply draw_pair_spec; [| done].
    rewrite Forall_forall in Hpairs. by apply Hpairs.
  - by rewrite lookup_insert_eq.
Qed.

(** *** The tables of the three predictors *)

Definition pairs_checked (self : topology) : bool :=
  forallb (λ pair : string * string,
             match BODY_PARTS self !! pair.1, BODY_PARTS self !! pair.2 with
             | Some p1, Some p2 =>
                 bool_decide (p1 < size (BODY_PARTS self))%nat &&
                 bool_decide (p2 < size (BODY_PARTS self))%nat
             | _, _ => false
             end) (POSE_PAIRS self).

Lemma pairs_checked_sound self :
  pairs_checked self = true →
  Forall (pair_in_range self (size (BODY_PARTS self))) (POSE_PAIRS self).
Proof.
  unfold pairs_checked. rewrite forallb_forall, Forall_forall.
  intros Hall pair Hin%list_elem_of_In. specialize (Hall pair Hin).
  unfold pair_in_range.
  destruct (BODY_PARTS self !! pair.1) as [p1|]; [| done].
  destruct (BODY_PARTS self !! pair.2) as [p2|]; [| done].
  apply andb_true_iff in Hall as [H1%bool_decide_eq_true H2%bool_decide_eq_true].
  by exists p1, p2.
Qed.

Lemma predictor_pairs_checked (p : predictor) :
  pairs_checked (_init__model_infor p) = true.
Proof. destruct p; vm_compute; reflexivity. Qed.

Lemma predictor_pairs_in_range (p : predictor) n :
  (size (BODY_PARTS (_init__model_infor p)) ≤ n)%nat →
  Forall (pair_in_range (_init__model_infor p) n)
         (POSE_PAIRS (_init__model_infor p)).
Proof.
  intros Hn.
  eapply Forall_impl; [apply pairs_checked_sound, predictor_pairs_checked |].
  intros pair (p1 & p2 & ? & ? & ? & ?). exists p1, p2.
  repeat split; try done; lia.
Qed.

(** *** Which segments are drawn *)

Definition is_line (d : draw) : bool :=
  match d with Line _ _ _ _ _ => true | _ => false end.

(** The [cv2.line] calls among [ds], in order. *)
Definition lines (ds : list draw) : list draw := List.filter is_line ds.

Lemma lines_app ds ds' : lines (ds ++ ds') = lines ds ++ lines ds'.
Proof. apply List.filter_app. Qed.

Lemma lines_markers keypoints put_text threshold (parts : list nat) :
  lines (flat_map (marker keypoints put_text threshold) parts) = [].
Proof.
  induction parts as [|i parts IH]; simpl; [done |].
  rewrite lines_app, IH, app_nil_r. unfold marker.
  destruct (keypoints !! i) as [[[[x y] prob]|]|]; try done.
  destruct (gt prob threshold); [| done]. by destruct put_text.
Qed.

Lemma lines_edges self keypoints threshold (pairs : list (string * string)) :
  lines (flat_map (edge self keypoints threshold) pairs)
  = flat_map (edge self keypoints threshold) pairs.
Proof.
  induction pairs as [|pair pairs IH]; simpl; [done |].
  rewrite lines_app, IH. f_equal. unfold edge.
  repeat case_match; done.
Qed.

(** A loop that returns ran every turn to its end. *)
Lemma for_each_Ok_inv {S A} (xs : list A) (body : A → M S unit) s s' u :
  for_each xs body s = (s', Ok u) →
  ∀ x, x ∈ xs → ∃ s1 s2, body x s1 = (s2, Ok tt).
Proof.
  revert s. induction xs as [|x xs IH]; intros s Hrun y Hy.
  { by apply elem_of_nil in Hy. }
  simpl in Hrun. unfold bind in Hrun.
  destruct (body x s) as [s1 [[]|e]] eqn:Hx; [| done].
  apply elem_of_cons in Hy as [-> | Hy]; [by exists s, s1 |].
  by apply (IH s1).
Qed.

Lemma visualize_points_Ok_inv self keypoints r put_text threshold
      (h h' : heap) r' :
  _visualize_points self keypoints r put_text threshold h = (h', Ok r') →
  (size (BODY_PARTS self) ≤ length keypoints)%nat.
Proof.
  unfold _visualize_points, mbind, M_bind, bind.
  destruct (for_each _ _ h) as [h1 [[]|e]] eqn:Hloop; [| done]. intros _.
  destruct (size (BODY_PARTS self)) as [|n] eqn:Hsize; [lia |].
  destruct (for_each_Ok_inv _ _ _ _ _ Hloop n) as (h2 & h3 & Hn).
  { apply elem_of_seq. lia. }
  unfold lift, getitem in Hn.
  destruct (keypoints !! n) as [k|] eqn:Hk; [| done].
  apply lookup_lt_Some in Hk. lia.
Qed.

(** A run of [visualize] that returns was given an image and a pose
    with an entry for every body part. *)
Lemma visualize_Ok_inv self keypoints img put_text threshold (h h' : heap) r :
  visualize self keypoints img put_text threshold h = (h', Ok r) →
  (size (BODY_PARTS self) ≤ length keypoints)%nat ∧ is_Some (h !! img).
Proof.
  unfold visualize. unfold mbind at 1, M_bind at 1, bind at 1, copy.
  destruct (h !! img) as [im|]; [| done].
  unfold mbind at 1, M_bind at 1, bind at 1.
  destruct (_visualize_points _ _ _ _ _ _) as [h1 [r1|e]] eqn:Hpoints;
    [| done].
  intros _. split; [| by eexists].
  by eapply visualize_points_Ok_inv.
Qed.

(** C6. For every predictor, pose, image and threshold, the image the
    renderer returns carries the [cv2.line] calls of the input image
    followed, in the order of [POSE_PAIRS], by the calls of each pair:
    exactly one segment, between the two keypoints, when both endpoints
    are present with confidences strictly above the threshold, and no
    call at all otherwise. *)
Theorem C6_edge_iff_both_visible
    (p : predictor) (keypoints : list (option keypoint)) (img : ref)
    (put_text : bool) (threshold : Q) (h : heap) :
  let self := _init__model_infor p in
  ∀ h' r,
    visualize self keypoints img put_text threshold h = (h', Ok r) →
    ∃ im im',
      h !! img = Some im ∧ h !! r = None ∧ h' = <[r := im']> h ∧
      lines (drawn im')
        = lines (drawn im) ++
          flat_map (edge self keypoints threshold) (POSE_PAIRS self) ∧
      ∀ pair,
        (∀ k1 k2, both_visible self keypoints threshold pair k1 k2 →
                  edge self keypoints threshold pair = [segment k1 k2]) ∧
        ((∀ k1 k2, ¬ both_visible self keypoints threshold pair k1 k2) ↔
         edge self keypoints threshold pair = []).
Proof.
  intros self h' r Hrun.
  destruct (visualize_Ok_inv _ _ _ _ _ _ _ _ Hrun) as [Hlen [im Himg]].
  rewrite (visualize_spec self keypoints img put_text threshold h im)
    in Hrun; [| done | by apply predictor_pairs_in_range | done].
  injection Hrun as <- <-.
  exists im. eexists. split; [done |].
  split; [apply not_elem_of_dom, is_fresh |]. split; [done |]. split.
  - simpl. by rewrite !lines_app, lines_markers, lines_edges.
  - intros pair. split; [apply edge_visible |]. split; [apply edge_hidden |].
    intros Hnil k1 k2 Hvis. apply edge_visible in Hvis. congruence.
Qed.

(** C6 at the MPI predictor: Head, Neck and RShoulder are above the
    threshold 0.5, LShoulder is below it; the segments drawn are those
    from Head to Neck and from Neck to RShoulder. *)
Lemma C6_witness :
  let h : heap := {[ 5%nat := {| pixels := [[(0, 0, 0)%Z]]; drawn := [] |} ]} in
  let keypoints :=
    [Some (10, 20, 0.9)%Q; Some (30, 40, 0.8)%Q; Some (50, 60, 0.7)%Q;
     None; None; Some (70, 80, 0.1)%Q; None; None; None; None; None;
     None; None; None; None; None] in
  ∃ h' r im',
    visualize MPI keypoints 5%nat false 0.5%Q h = (h', Ok r) ∧
    h' = <[r := im']> h ∧
    lines (drawn im')
      = [segment (10, 20, 0.9)%Q (30, 40, 0.8)%Q;
         segment (30, 40, 0.8)%Q (50, 60, 0.7)%Q].
Proof.
  intros h keypoints.
  eassert (visualize MPI keypoints 5%nat false 0.5%Q h = (_, Ok _)) as Hrun
    by (vm_compute; reflexivity).
  destruct (C6_edge_iff_both_visible MPIOpenPosePredictor keypoints 5%nat
              false 0.5%Q h _ _ Hrun)
    as (im & im' & Him & _ & Hh' & Hlines & _).
  do 2 eexists. exists im'. split; [exact Hrun |]. split; [exact Hh' |].
  rewrite Hlines. injection Him as <-. vm_compute. reflexivity.
Defined.

(** C10. In each of the three predictors every name used in
    [POSE_PAIRS] is a key of [BODY_PARTS] whose channel index is
    strictly below [len(BODY_PARTS)]; hence, for a keypoint list of
    that length, the four lookups made for a pair while drawing the
    skeleton succeed: none is out of range. *)
Theorem C10_pair_lookups_in_range (p : predictor) :
  let self := _init__model_infor p in
  (∀ pair, pair ∈ POSE_PAIRS self →
     ∃ p1 p2,
       BODY_PARTS self !! pair.1 = Some p1 ∧
       BODY_PARTS self !! pair.2 = Some p2 ∧
       (p1 < size (BODY_PARTS self))%nat ∧
       (p2 < size (BODY_PARTS self))%nat) ∧
  (∀ (keypoints : list (option keypoint)) pair,
     length keypoints = size (BODY_PARTS self) →
     pair ∈ POSE_PAIRS self →
     ∃ p1 p2 k1 k2,
       dict_get (BODY_PARTS self) pair.1 = Ok p1 ∧
       dict_get (BODY_PARTS self) pair.2 = Ok p2 ∧
       getitem keypoints p1 = Ok k1 ∧
       getitem keypoints p2 = Ok k2).
Proof.
  intros self.
  pose proof (pairs_checked_sound self (predictor_pairs_checked p)) as Hok.
  rewrite Forall_forall in Hok. split; [exact Hok |].
  intros keypoints pair Hlen Hin.
  destruct (Hok pair Hin) as (p1 & p2 & Hp1 & Hp2 & Hlt1 & Hlt2).
  destruct (lookup_lt_is_Some_2 keypoints p1) as [k1 Hk1]; [lia |].
  destruct (lookup_lt_is_Some_2 keypoints p2) as [k2 Hk2]; [lia |].
  exists p1, p2, k1, k2. unfold dict_get, getitem.
  by rewrite Hp1, Hp2, Hk1, Hk2.
Qed.

(** C10 at the Body25 predictor and the pair RAnkle, RHeel. *)
Lemma C10_witness :
  let keypoints : list (option keypoint) := replicate 26 None in
  length keypoints = size (BODY_PARTS Body25) ∧
  ∃ p1 p2 k1 k2,
    dict_get (BODY_PARTS Body25) "RAnkle" = Ok p1 ∧
    dict_get (BODY_PARTS Body25) "RHeel" = Ok p2 ∧
    getitem keypoints p1 = Ok k1 ∧
    getitem keypoints p2 = Ok k2.
Proof.
  intros keypoints. split; [vm_compute; reflexivity |].
  apply (proj2 (C10_pair_lookups_in_range Body25OpenPosePredictor)
           keypoints ("RAnkle", "RHeel")).
  - vm_compute. reflexivity.
  - vm_compute. repeat constructor.
Defined.

End RenderFacts.

(** ** The pose-to-record serialiser *)

Module SerializerFacts.
Import Py OpenPose PyFacts KeypointFacts.

(** The three numbers written for one entry of the pose. *)
Definition triple (missing_val : Z) (p : option keypoint) : list Q :=
  match p with
  | Some (x, y, prob) => [x; y; prob]
  | None => [inject_Z missing_val; inject_Z missing_val; inject_Z missing_val]
  end.

Lemma concat_triples_length {A B} (f : A → list B) (l : list A) :
  (∀ a, length (f a) = 3%nat) → length (concat (map f l)) = (3 * length l)%nat.
Proof.
  intros Hf. induction l as [|a l IH]; simpl; [done |].
  rewrite length_app, Hf, IH. lia.
Qed.

Lemma concat_triples_lookup {A B} (f : A → list B) (l : list A) i j a :
  (∀ a, length (f a) = 3%nat) → l !! i = Some a → (j < 3)%nat →
  concat (map f l) !! (3 * i + j)%nat = f a !! j.
Proof.
  intros Hf. revert i. induction l as [|b l IH]; intros i Hi Hj; [done |].
  change (concat (map f (b :: l))) with (f b ++ concat (map f l)).
  destruct i as [|i]; simpl in Hi.
  - injection Hi as ->. rewrite lookup_app_l by (rewrite Hf; lia).
    by rewrite Nat.mul_0_r.
  - rewrite lookup_app_r by (rewrite Hf; lia). rewrite Hf.
    replace (3 * S i + j - 3)%nat with (3 * i + j)%nat by lia.
    by apply IH.
Qed.

(** C7. For every pose and missing value the record is the envelope
    [{version: 1.0, people: [one entry]}]; the entry holds the flat
    sequence x0, y0, c0, x1, y1, c1, ... in which an absent keypoint
    contributes the missing value three times; its length is three
    times the length of the pose, hence [3 * len(BODY_PARTS)] for the
    pose [predict] returns on a well-formed network output. The record
    [add_keypoints_to_json] returns is the record of the pose [predict]
    returns with the threshold 0.05, and what [predict] raises,
    [add_keypoints_to_json] raises. *)
Theorem C7_flat_record {R : Rounding}
    (pose : list (option keypoint)) (missing_val : Z) :
  (∃ flat,
     keypoints_to_json pose missing_val
       = {| version := 1.0%Q; people := [ {| pose_keypoints := flat |} ] |} ∧
     flat = concat (map (triple missing_val) pose) ∧
     length flat = (3 * length pose)%nat ∧
     (∀ i, pose !! i = Some None →
        flat !! (3 * i)%nat = Some (inject_Z missing_val) ∧
        flat !! (3 * i + 1)%nat = Some (inject_Z missing_val) ∧
        flat !! (3 * i + 2)%nat = Some (inject_Z missing_val)) ∧
     (∀ i x y prob, pose !! i = Some (Some (x, y, prob)) →
        flat !! (3 * i)%nat = Some x ∧
        flat !! (3 * i + 1)%nat = Some y ∧
        flat !! (3 * i + 2)%nat = Some prob)) ∧
  (∀ self v img_w img_h,
     well_formed self v →
     ∃ flat,
       add_keypoints_to_json self v img_w img_h missing_val
         = Ok {| version := 1.0%Q;
                 people := [ {| pose_keypoints := flat |} ] |} ∧
       length flat = (3 * size (BODY_PARTS self))%nat) ∧
  (∀ self v img_w img_h,
     (∀ pose',
        predict self v img_w img_h (literal (5 # 100)) = Ok pose' →
        add_keypoints_to_json self v img_w img_h missing_val
        = Ok (keypoints_to_json pose' missing_val)) ∧
     (∀ e,
        predict self v img_w img_h (literal (5 # 100)) = Raise e →
        add_keypoints_to_json self v img_w img_h missing_val = Raise e)).
Proof.
  assert (∀ p, length (triple missing_val p) = 3%nat) as Hlen3.
  { by intros [[[x y] prob]|]. }
  assert (∀ pose' : list (option keypoint),
            keypoints_to_json pose' missing_val
            = {| version := 1.0%Q;
                 people := [ {| pose_keypoints :=
                                  concat (map (triple missing_val) pose') |} ] |})
    as Hjson.
  { intros pose'. reflexivity. }
  split; [| split].
  - exists (concat (map (triple missing_val) pose)).
    split; [apply Hjson |]. split; [done |].
    split; [by apply concat_triples_length |]. split.
    + intros i Hi.
      pose proof (concat_triples_lookup (triple missing_val) pose i 0 _
                    Hlen3 Hi) as H0.
      pose proof (concat_triples_lookup (triple missing_val) pose i 1 _
                    Hlen3 Hi) as H1.
      pose proof (concat_triples_lookup (triple missing_val) pose i 2 _
                    Hlen3 Hi) as H2.
      rewrite Nat.add_0_r in H0.
      rewrite H0, H1, H2 by lia. done.
    + intros i x y prob Hi.
      pose proof (concat_triples_lookup (triple missing_val) pose i 0 _
                    Hlen3 Hi) as H0.
      pose proof (concat_triples_lookup (triple missing_val) pose i 1 _
                    Hlen3 Hi) as H1.
      pose proof (concat_triples_lookup (triple missing_val) pose i 2 _
                    Hlen3 Hi) as H2.
      rewrite Nat.add_0_r in H0.
      rewrite H0, H1, H2 by lia. done.
  - intros self v img_w img_h Hwf.
    destruct (parse_keypoints_spec self v (img_w, img_h) (literal (5 # 100))
                Hwf)
      as (points & Hrun & Hlen & _).
    exists (concat (map (triple missing_val) points)).
    unfold add_keypoints_to_json, predict. rewrite Hrun. simpl.
    split; [f_equal; apply Hjson |].
    rewrite concat_triples_length by done. by rewrite Hlen.
  - intros self v img_w img_h. unfold add_keypoints_to_json. split.
    + by intros pose' ->.
    + by intros e ->.
Qed.

(** A 1 x 1 score volume with 19 channels; channel [c] holds
    [c / 100], so that the channels 0 to 5 are not above 0.05. *)
Definition faint_volume : ndarray4 :=
  {| dim0 := 1; dim1 := 19; dim2 := 1; dim3 := 1;
     at4 := λ _ c _ _, (Z.of_nat c # 100)%Q |}.

(** The pose extracted from [faint_volume] with the threshold 0.05. *)
Definition faint_pose : list (option keypoint) :=
  Eval vm_compute in
    match predict (R := exact) COCO faint_volume 640 480
            (literal (R := exact) (5 # 100))
    with
    | Ok points => points
    | Raise _ => []
    end.

(** C7 at the COCO predictor and [faint_volume], missing value -1: the
    keypoint of channel 5 is absent, that of channel 6 is present. *)
Lemma C7_witness :
  predict (R := exact) COCO faint_volume 640 480
    (literal (R := exact) (5 # 100))
  = Ok faint_pose ∧
  faint_pose !! 5%nat = Some None ∧
  faint_pose !! 6%nat = Some (Some (0 # 1, 0 # 1, 6 # 100)%Q) ∧
  ∃ flat,
    add_keypoints_to_json (R := exact) COCO faint_volume 640 480 (-1)
      = Ok {| version := 1.0%Q; people := [ {| pose_keypoints := flat |} ] |} ∧
    length flat = 57%nat ∧
    flat !! 15%nat = Some (inject_Z (-1)) ∧
    flat !! 16%nat = Some (inject_Z (-1)) ∧
    flat !! 17%nat = Some (inject_Z (-1)) ∧
    flat !! 18%nat = Some (0 # 1)%Q ∧
    flat !! 19%nat = Some (0 # 1)%Q ∧
    flat !! 20%nat = Some (6 # 100)%Q.
Proof.
  assert (predict (R := exact) COCO faint_volume 640 480
            (literal (R := exact) (5 # 100))
          = Ok faint_pose) as Hrun by (vm_compute; reflexivity).
  split; [exact Hrun |]. split; [reflexivity |]. split; [reflexivity |].
  destruct (C7_flat_record (R := exact) faint_pose (-1))
    as ((flat & Hjson & _ & Hlen & Hnone & Hsome) & _ & Hfun).
  exists flat. split.
  - rewrite <- Hjson.
    apply (proj1 (Hfun COCO faint_volume 640%Z 480%Z) faint_pose Hrun).
  - split; [exact Hlen |].
    destruct (Hnone 5%nat eq_refl) as (H0 & H1 & H2).
    destruct (Hsome 6%nat (0 # 1)%Q (0 # 1)%Q (6 # 100)%Q eq_refl)
      as (H3 & H4 & H5).
    repeat split; assumption.
Defined.

End SerializerFacts.


(** ** The dataset splitter *)

Module SplitFacts.
Import Py DirUtils PyFacts.

(** *** The shuffle *)

Lemma swap_Permutation {A} (x : list A) i j : swap x i j ≡ₚ x.
Proof.
  unfold swap.
  destruct (x !! i) as [xi|] eqn:Hi; [| done].
  destruct (x !! j) as [xj|] eqn:Hj; [| done].
  by apply Permutation_insert_swap.
Qed.

Lemma shuffle_from_Permutation {A} i : ∀ draws (x : list A),
  shuffle_from i draws x ≡ₚ x.
Proof.
  induction i as [|i IH]; intros draws x; simpl; [done |].
  rewrite IH. apply swap_Permutation.
Qed.

(** [random.shuffle] rearranges the list: nothing is lost, added or
    repeated, whatever the generator draws. *)
Lemma shuffle_Permutation {A} draws (x : list A) : shuffle draws x ≡ₚ x.
Proof. apply shuffle_from_Permutation. Qed.

Lemma shuffle_length {A} draws (x : list A) :
  length (shuffle draws x) = length x.
Proof. apply Permutation_length, shuffle_Permutation. Qed.

(** *** Slices *)

Lemma clamp_nonneg len (i : Z) :
  (0 ≤ i)%Z → clamp len i = Nat.min (Z.to_nat i) len.
Proof. intros Hi. unfold clamp. by rewrite decide_False by lia. Qed.

(** [xs[:a]], [xs[a:b]] and [xs[b:]] for non-negative bounds. *)
Lemma slice_to {A} (xs : list A) (a : Z) :
  (0 ≤ a)%Z → slice xs None (Some a) = take (Z.to_nat a) xs.
Proof.
  intros Ha. unfold slice. simpl. rewrite clamp_nonneg by done.
  rewrite Nat.sub_0_r, drop_0.
  destruct (decide (Z.to_nat a ≤ length xs)%nat).
  - by rewrite Nat.min_l.
  - rewrite Nat.min_r by lia.
    rewrite (take_ge xs (length xs)) by lia.
    by rewrite (take_ge xs (Z.to_nat a)) by lia.
Qed.

Lemma slice_from {A} (xs : list A) (b : Z) :
  (0 ≤ b)%Z → slice xs (Some b) None = drop (Z.to_nat b) xs.
Proof.
  intros Hb. unfold slice. simpl. rewrite clamp_nonneg by done.
  destruct (decide (Z.to_nat b ≤ length xs)%nat).
  - rewrite Nat.min_l by done. apply take_ge. rewrite length_drop. lia.
  - rewrite Nat.min_r by lia. rewrite Nat.sub_diag.
    rewrite (drop_ge xs (Z.to_nat b)) by lia. apply take_0.
Qed.

Lemma slice_between {A} (xs : list A) (a b : Z) :
  (0 ≤ a)%Z → (0 ≤ b)%Z →
  slice xs (Some a) (Some b)
  = take (Z.to_nat b - Z.to_nat a) (drop (Z.to_nat a) xs).
Proof.
  intros Ha Hb. unfold slice. simpl. rewrite !clamp_nonneg by done.
  destruct (decide (Z.to_nat a ≤ length xs)%nat).
  - rewrite (Nat.min_l (Z.to_nat a)) by done.
    destruct (decide (Z.to_nat b ≤ length xs)%nat).
    + by rewrite Nat.min_l.
    + rewrite Nat.min_r by lia.
      rewrite (take_ge _ (length xs - Z.to_nat a))
        by (rewrite length_drop; lia).
      by rewrite take_ge by (rewrite length_drop; lia).
  - rewrite (Nat.min_r (Z.to_nat a)) by lia.
    rewrite (drop_ge xs (length xs)), (drop_ge xs (Z.to_nat a)) by lia.
    by rewrite !take_nil.
Qed.

(** Three slices cut at [a ≤ b] put the list back together. *)
Lemma take_take_drop {A} (xs : list A) (a b : nat) :
  (a ≤ b)%nat → take a xs ++ take (b - a) (drop a xs) ++ drop b xs = xs.
Proof.
  intros Hab. rewrite <- (take_drop a xs) at 4. f_equal.
  rewrite <- (take_drop (b - a) (drop a xs)) at 2. f_equal.
  rewrite drop_drop. f_equal. lia.
Qed.

(** Cut at ordered, non-negative indices the three slices follow one
    another. *)
Lemma slices_at_ordered (fp : list string) (a b : Z) :
  (0 ≤ a ≤ b)%Z →
  slices_at fp a b
  = (take (Z.to_nat a) fp,
     take (Z.to_nat b - Z.to_nat a) (drop (Z.to_nat a) fp),
     drop (Z.to_nat b) fp).
Proof.
  intros Hab. unfold slices_at.
  by rewrite slice_to, slice_between, slice_from by lia.
Qed.

Section splitting.
Context {R : Rounding}.

(** *** The two checks *)

Lemma random_split_bad_ratios glob draws input_path output_path
      train_ratio val_ratio move name (w : world) :
  (1 < fadd train_ratio val_ratio)%Q →
  random_split glob draws input_path output_path train_ratio val_ratio
    move name w
  = (w, Raise (AssertionError "Total of train, val ratio must <= 1")).
Proof.
  intros Hsum. unfold random_split, assert.
  apply le_false in Hsum. by rewrite Hsum.
Qed.

Lemma random_split_empty glob draws input_path output_path
      train_ratio val_ratio move name (w : world) :
  (fadd train_ratio val_ratio <= 1)%Q → data_paths glob input_path = [] →
  random_split glob draws input_path output_path train_ratio val_ratio
    move name w
  = (w, Raise (AssertionError "Empty data folder")).
Proof.
  intros Hsum Hempty. unfold random_split, assert.
  apply le_true in Hsum. by rewrite Hsum, Hempty.
Qed.

(** *** The cut indices *)

(** For non-negative ratios the first cut is not after the second. *)
Lemma cuts_ordered {L : RoundingLaws} (n : nat) (train_ratio val_ratio : Q) :
  representable train_ratio →
  (0 <= train_ratio)%Q → (0 <= val_ratio)%Q →
  (0 ≤ train_end n train_ratio ≤ val_end n train_ratio val_ratio)%Z.
Proof.
  intros Hrep Ht Hv. unfold train_end, val_end.
  pose proof (float_nonneg n) as Hn.
  split; [by apply int_nonneg, fmul_nonneg |].
  apply int_mono; [by apply fmul_nonneg |].
  apply fmul_le_r; [done |]. by apply fadd_le_l.
Qed.

(** For non-negative ratios [int] is the floor. *)
Lemma cuts_floor {L : RoundingLaws} (n : nat) (train_ratio val_ratio : Q) :
  (0 <= train_ratio)%Q → (0 <= val_ratio)%Q →
  train_end n train_ratio
  = Qfloor (fmul (float (Z.of_nat n)) train_ratio) ∧
  val_end n train_ratio val_ratio
  = Qfloor (fmul (float (Z.of_nat n)) (fadd train_ratio val_ratio)).
Proof.
  intros Ht Hv. pose proof (float_nonneg n) as Hn.
  split; apply int_floor, fmul_nonneg; try done. by apply fadd_nonneg.
Qed.

(** C2 (amended). For every non-empty input file list and non-negative
    ratios with trainRatio + valRatio <= 1 (the sum computed in floating
    point, trainRatio a float: a number that rounding leaves as it is),
    the three groups [random_split] cuts from the shuffled list and
    assigns to train, val and test are a rearrangement of the input:
    the three lengths add up to the length of the input, no file is
    omitted, and when the input lists each file once the groups hold no
    file twice, so every input file is in exactly one group. *)
Theorem C2_groups_partition_input {L : RoundingLaws}
    (fp : list string) (draws : list nat) (train_ratio val_ratio : Q) :
  fp ≠ [] → representable train_ratio →
  (0 <= train_ratio)%Q → (0 <= val_ratio)%Q →
  (fadd train_ratio val_ratio <= 1)%Q →
  ∃ train val test,
    slices (shuffle draws fp) (length fp) train_ratio val_ratio
    = (train, val, test) ∧
    (length train + length val + length test = length fp)%nat ∧
    train ++ val ++ test ≡ₚ fp ∧
    (NoDup fp →
     NoDup (train ++ val ++ test) ∧
     ∀ f, f ∈ fp →
       (f ∈ train ∧ (f ∉ val) ∧ (f ∉ test)) ∨
       ((f ∉ train) ∧ f ∈ val ∧ (f ∉ test)) ∨
       ((f ∉ train) ∧ (f ∉ val) ∧ f ∈ test)).
Proof.
  intros _ Hrep Ht Hv _.
  pose proof (cuts_ordered (length fp) train_ratio val_ratio Hrep Ht Hv)
    as Hab.
  set (a := train_end (length fp) train_ratio) in *.
  set (b := val_end (length fp) train_ratio val_ratio) in *.
  set (s := shuffle draws fp).
  assert (take (Z.to_nat a) s ++
          take (Z.to_nat b - Z.to_nat a) (drop (Z.to_nat a) s) ++
          drop (Z.to_nat b) s ≡ₚ fp) as Hperm.
  { rewrite take_take_drop by lia. apply shuffle_Permutation. }
  exists (take (Z.to_nat a) s),
    (take (Z.to_nat b - Z.to_nat a) (drop (Z.to_nat a) s)),
    (drop (Z.to_nat b) s).
  split; [by apply slices_at_ordered |]. split; [| split; [exact Hperm |]].
  - apply Permutation_length in Hperm. rewrite !length_app in Hperm. lia.
  - intros Hnd. rewrite <- Hperm in Hnd. split; [exact Hnd |].
    intros f Hf. rewrite <- Hperm in Hf.
    apply NoDup_app in Hnd as (_ & Hdisj1 & Hnd).
    apply NoDup_app in Hnd as (_ & Hdisj2 & _).
    rewrite !elem_of_app in Hf. destruct Hf as [H1 | [H2 | H3]].
    + left. specialize (Hdisj1 f H1). rewrite elem_of_app in Hdisj1. tauto.
    + right. left. split; [| split; [done | by apply Hdisj2]].
      intros H1. apply (Hdisj1 f H1), elem_of_app. tauto.
    + right. right. split; [| split; [| done]].
      * intros H1. apply (Hdisj1 f H1), elem_of_app. tauto.
      * intros H2. by apply (Hdisj2 f H2).
Qed.

(** C3 (amended). For non-negative ratios (trainRatio a float: a number
    that rounding leaves as it is), [random_split] cuts the
    shuffled input at the indices floor(n * trainRatio) and
    floor(n * (trainRatio + valRatio)), the products being those the
    code computes in floating point; the first index is not after the
    second and the three slices follow one another and make up the
    shuffled sequence. In binary64 the ratios 0.7 and 0.2 pass the check
    and give for 10 files the cut indices 7 and 9; and every 10-element
    list cut at the indices binary64 gives for 0.7 and 0.2 has a train
    slice of length 7, a val slice of length 2 and a test slice of
    length 1. *)
Theorem C3_cuts_at_floor_indices :
  (RoundingLaws →
   ∀ (fp : list string) (draws : list nat) (train_ratio val_ratio : Q),
     representable train_ratio →
     (0 <= train_ratio)%Q → (0 <= val_ratio)%Q →
     ∃ a b : nat,
       Z.of_nat a
       = Qfloor (fmul (float (Z.of_nat (length fp))) train_ratio) ∧
       Z.of_nat b
       = Qfloor (fmul (float (Z.of_nat (length fp)))
                      (fadd train_ratio val_ratio)) ∧
       train_end (length fp) train_ratio = Z.of_nat a ∧
       val_end (length fp) train_ratio val_ratio = Z.of_nat b ∧
       (a ≤ b)%nat ∧
       slices (shuffle draws fp) (length fp) train_ratio val_ratio
       = (take a (shuffle draws fp),
          take (b - a) (drop a (shuffle draws fp)),
          drop b (shuffle draws fp)) ∧
       take a (shuffle draws fp) ++
       take (b - a) (drop a (shuffle draws fp)) ++
       drop b (shuffle draws fp) = shuffle draws fp) ∧
  ((0x1.6666666666666p-1 + 0x1.999999999999ap-3 <=? 1)%float = true ∧
   Binary64.train_end 10 0x1.6666666666666p-1 = Some 7%Z ∧
   Binary64.val_end 10 0x1.6666666666666p-1 0x1.999999999999ap-3
   = Some 9%Z) ∧
  (∀ fp : list string,
     length fp = 10%nat →
     ∃ a b train val test,
       Binary64.train_end 10 0x1.6666666666666p-1 = Some a ∧
       Binary64.val_end 10 0x1.6666666666666p-1 0x1.999999999999ap-3
       = Some b ∧
       slices_at fp a b = (train, val, test) ∧
       length train = 7%nat ∧ length val = 2%nat ∧ length test = 1%nat ∧
       train ++ val ++ test = fp).
Proof.
  split; [| split].
  - intros L fp draws train_ratio val_ratio Hrep Ht Hv.
    pose proof (cuts_ordered (length fp) train_ratio val_ratio Hrep Ht Hv)
      as Hab.
    destruct (cuts_floor (length fp) train_ratio val_ratio Ht Hv)
      as [Hfa Hfb].
    exists (Z.to_nat (train_end (length fp) train_ratio)),
      (Z.to_nat (val_end (length fp) train_ratio val_ratio)).
    rewrite !Z2Nat.id by lia.
    split; [done |]. split; [done |]. split; [done |]. split; [done |].
    split; [lia |]. split; [by apply slices_at_ordered |].
    apply take_take_drop. lia.
  - repeat split; vm_compute; reflexivity.
  - intros fp Hlen.
    exists 7%Z, 9%Z, (take 7 fp), (take (9 - 7) (drop 7 fp)), (drop 9 fp).
    split; [vm_compute; reflexivity |]. split; [vm_compute; reflexivity |].
    split; [by apply (slices_at_ordered fp 7 9) |].
    rewrite !length_take, !length_drop, Hlen.
    split; [lia |]. split; [lia |]. split; [lia |].
    by apply (take_take_drop fp 7 9); lia.
Qed.

(** C5 (amended). [random_split] checks its preconditions before it
    touches the file system: every call with trainRatio + valRatio > 1
    raises the ratio error (an [AssertionError] with the message
    'Total of train, val ratio must <= 1'), and every call whose ratios
    pass that check and whose input file list is empty raises the
    empty-input error (an [AssertionError] with the message
    'Empty data folder'); in both cases no directory has been created and
    no file copied or moved: the history of the outside world is what it
    was before the call. *)
Theorem C5_checks_before_any_mutation
    (glob : path → list string) (draws : list nat)
    (input_path output_path : string) (train_ratio val_ratio : Q)
    (move : bool) (name : string) (w : world) :
  ((1 < fadd train_ratio val_ratio)%Q →
   random_split glob draws input_path output_path train_ratio val_ratio
     move name w
   = (w, Raise (AssertionError "Total of train, val ratio must <= 1"))) ∧
  ((fadd train_ratio val_ratio <= 1)%Q → data_paths glob input_path = [] →
   random_split glob draws input_path output_path train_ratio val_ratio
     move name w
   = (w, Raise (AssertionError "Empty data folder"))).
Proof.
  split.
  - apply random_split_bad_ratios.
  - apply random_split_empty.
Qed.

End splitting.

(** *** Samples, in exact arithmetic *)

(** The specification's statement that the three groups partition the
    input as soon as the input is not empty and the ratios pass the
    check of [random_split]. *)
Definition partitions_when_sum_le_1 : Prop :=
  ∀ (R : Rounding), RoundingLaws →
  ∀ (fp : list string) (draws : list nat) (train_ratio val_ratio : Q),
    fp ≠ [] →
    representable train_ratio → representable val_ratio →
    (fadd train_ratio val_ratio <= 1)%Q →
    ∃ train val test,
      slices (shuffle draws fp) (length fp) train_ratio val_ratio
      = (train, val, test) ∧
      train ++ val ++ test ≡ₚ fp.

(** C2, as stated, fails: with train_ratio = 0.5 and val_ratio = -0.5
    (sum 0 <= 1) on two files, train is [fp[:1]], val is [fp[1:0]] and
    test is [fp[0:]]: the groups hold three files for two inputs, the
    first one in train and in test. *)
Lemma C2_counterexample : ¬ partitions_when_sum_le_1.
Proof.
  intros Hclaim.
  destruct (Hclaim exact exact_laws ["a.jpg"; "b.jpg"] []
              (1 # 2)%Q (- (1 # 2))%Q)
    as (train & val & test & Hslices & Hperm);
    [done | reflexivity | reflexivity | done |].
  vm_compute in Hslices. injection Hslices as <- <- <-.
  apply Permutation_length in Hperm. discriminate Hperm.
Qed.

(** C2 on three files with ratios 0.5 and 0.25. *)
Lemma C2_witness :
  ∃ train val test,
    slices (R := exact) (shuffle [2; 0]%nat ["a.jpg"; "b.jpg"; "c.jpg"]) 3
      0.5%Q 0.25%Q
    = (train, val, test) ∧
    (length train + length val + length test = 3)%nat ∧
    train ++ val ++ test ≡ₚ ["a.jpg"; "b.jpg"; "c.jpg"].
Proof.
  destruct (C2_groups_partition_input (R := exact) (L := exact_laws)
              ["a.jpg"; "b.jpg"; "c.jpg"] [2; 0]%nat 0.5%Q 0.25%Q)
    as (train & val & test & Hslices & Hlen & Hperm & _).
  - discriminate.
  - reflexivity.
  - vm_compute. discriminate.
  - vm_compute. discriminate.
  - vm_compute. discriminate.
  - exists train, val, test. repeat split; assumption.
Defined.

(** The specification's statement that the two cut indices are the
    floors of the products, whatever ratios pass the check of
    [random_split]. *)
Definition cuts_are_floors : Prop :=
  ∀ (R : Rounding), RoundingLaws →
  ∀ (n : nat) (train_ratio val_ratio : Q),
    representable train_ratio → representable val_ratio →
    (fadd train_ratio val_ratio <= 1)%Q →
    train_end n train_ratio
    = Qfloor (fmul (float (Z.of_nat n)) train_ratio) ∧
    val_end n train_ratio val_ratio
    = Qfloor (fmul (float (Z.of_nat n)) (fadd train_ratio val_ratio)).

(** C3, as stated, fails: for 10 files and train_ratio = -1/16 the cut
    index is [int(-0.625) = 0], while the floor is -1. *)
Lemma C3_counterexample : ¬ cuts_are_floors.
Proof.
  intros Hclaim.
  destruct (Hclaim exact exact_laws 10%nat (- (1 # 16))%Q (1 # 2)%Q)
    as [Htrain _].
  - reflexivity.
  - reflexivity.
  - vm_compute. discriminate.
  - vm_compute in Htrain. discriminate Htrain.
Qed.

(** Ten files. *)
Definition ten_files : list string :=
  ["0.jpg"; "1.jpg"; "2.jpg"; "3.jpg"; "4.jpg";
   "5.jpg"; "6.jpg"; "7.jpg"; "8.jpg"; "9.jpg"].

(** C3 on three files with ratios 0.5 and 0.25 in exact arithmetic, and
    on ten shuffled files with the ratios 0.7 and 0.2 of binary64. *)
Lemma C3_witness :
  ((0 <= 0.5)%Q ∧ (0 <= 0.25)%Q ∧
   ∃ a b : nat,
     train_end (R := exact) 3 0.5%Q = Z.of_nat a ∧
     val_end (R := exact) 3 0.5%Q 0.25%Q = Z.of_nat b ∧
     (a ≤ b)%nat ∧
     take a (shuffle [2; 0]%nat ["a.jpg"; "b.jpg"; "c.jpg"]) ++
     take (b - a) (drop a (shuffle [2; 0]%nat ["a.jpg"; "b.jpg"; "c.jpg"])) ++
     drop b (shuffle [2; 0]%nat ["a.jpg"; "b.jpg"; "c.jpg"])
     = shuffle [2; 0]%nat ["a.jpg"; "b.jpg"; "c.jpg"]) ∧
  (length (shuffle [3; 1; 4; 1; 5]%nat ten_files) = 10%nat ∧
   ∃ a b train val test,
     Binary64.train_end 10 0x1.6666666666666p-1 = Some a ∧
     Binary64.val_end 10 0x1.6666666666666p-1 0x1.999999999999ap-3
     = Some b ∧
     slices_at (shuffle [3; 1; 4; 1; 5]%nat ten_files) a b
     = (train, val, test) ∧
     length train = 7%nat ∧ length val = 2%nat ∧ length test = 1%nat).
Proof.
  split.
  - split; [discriminate |]. split; [discriminate |].
    destruct (proj1 (C3_cuts_at_floor_indices (R := exact)) exact_laws
                ["a.jpg"; "b.jpg"; "c.jpg"] [2; 0]%nat 0.5%Q 0.25%Q)
      as (a & b & _ & _ & Ha & Hb & Hab & _ & Hcat).
    + reflexivity.
    + discriminate.
    + discriminate.
    + exists a, b. repeat split; assumption.
  - split; [reflexivity |].
    destruct (proj2 (proj2 (C3_cuts_at_floor_indices (R := exact)))
                (shuffle [3; 1; 4; 1; 5]%nat ten_files))
      as (a & b & train & val & test & Ha & Hb & Hslices & Htrain & Hval
          & Htest & _).
    + reflexivity.
    + exists a, b, train, val, test. repeat split; assumption.
Defined.

(** The specification's statement that an empty input is always
    reported as such. *)
Definition empty_input_always_reported : Prop :=
  ∀ (R : Rounding), RoundingLaws →
  ∀ glob draws input_path output_path train_ratio val_ratio move name
    (w : world),
    representable train_ratio → representable val_ratio →
    data_paths glob input_path = [] →
    (random_split glob draws input_path output_path train_ratio val_ratio
       move name w).2
    = Raise (AssertionError "Empty data folder").

(** C5, as stated, fails: on an empty input with train_ratio = 0.75 and
    val_ratio = 0.5 the ratio check fires first, and its error is the
    one raised. *)
Lemma C5_counterexample : ¬ empty_input_always_reported.
Proof.
  intros Hclaim.
  specialize (Hclaim exact exact_laws (λ _, []) [] "data" "out"
                (3 # 4)%Q (1 # 2)%Q false "" [] eq_refl eq_refl eq_refl).
  vm_compute in Hclaim. discriminate Hclaim.
Qed.

(** C5 with ratios 0.75 and 0.5, and with an empty input; the outside
    world already has a history. *)
Lemma C5_witness :
  (1 < fadd (R := exact) 0.75 0.5)%Q ∧
  random_split (R := exact) (λ _, ["a.jpg"]) [] "data" "out" 0.75%Q 0.5%Q
    false "" [Mkdir ["old"]]
  = ([Mkdir ["old"]],
     Raise (AssertionError "Total of train, val ratio must <= 1")) ∧
  (fadd (R := exact) 0.5 0.25 <= 1)%Q ∧
  random_split (R := exact) (λ _, []) [] "data" "out" 0.5%Q 0.25%Q true ""
    [Mkdir ["old"]]
  = ([Mkdir ["old"]], Raise (AssertionError "Empty data folder")).
Proof.
  split; [reflexivity |]. split.
  - apply (proj1 (C5_checks_before_any_mutation (R := exact) (λ _, ["a.jpg"])
                    [] "data" "out" 0.75%Q 0.5%Q false "" [Mkdir ["old"]])).
    reflexivity.
  - split; [discriminate |].
    apply (proj2 (C5_checks_before_any_mutation (R := exact) (λ _, []) []
                    "data" "out" 0.5%Q 0.25%Q true "" [Mkdir ["old"]]));
      [discriminate | reflexivity].
Defined.

End SplitFacts.

(** ** Rounding at work in binary64 *)

Module Binary64Facts.

(** With the ratios 0.7 and 0.1 on 10 files, [0.7 + 0.1] is
    [0.7999999999999999] and the second cut index is 7, not 8: the floor
    is that of the product the code computes. *)
Lemma rounded_sum_cuts_lower :
  Binary64.train_end 10 0x1.6666666666666p-1 = Some 7%Z ∧
  Binary64.val_end 10 0x1.6666666666666p-1 0x1.999999999999ap-4 = Some 7%Z.
Proof. split; vm_compute; reflexivity. Qed.

End Binary64Facts.

(** ** Extraction: ill-shaped outputs and the range of the coordinates *)

Module ExtractionFacts.
Import Py OpenPose PyFacts MinMaxLocFacts KeypointFacts.

(** A comprehension raises what its first failing element raises. *)
Lemma rmap_first_failure {A B} (f : A → result B) xs1 x xs2 e :
  (∀ y, y ∈ xs1 → ∃ b, f y = Ok b) → f x = Raise e →
  rmap f (xs1 ++ x :: xs2) = Raise e.
Proof.
  intros Hxs1 Hx. induction xs1 as [|y xs1 IH]; simpl.
  - by rewrite Hx.
  - destruct (Hxs1 y) as [b ->]; [left |]. simpl.
    rewrite IH; [done |]. intros y' Hy'. apply Hxs1. by right.
Qed.

Section extraction.
Context {R : Rounding}.

Lemma parse_channel_in_range v img_size threshold idx :
  (0 < dim0 v)%nat → (idx < dim1 v)%nat →
  (0 < dim2 v)%nat → (0 < dim3 v)%nat →
  ∃ k, parse_channel v img_size threshold (dim2 v) (dim3 v) idx = Ok k.
Proof.
  intros H0 H1 H2 H3. unfold parse_channel, plane.
  rewrite decide_True by lia. simpl.
  set (m := {| rows := dim2 v; cols := dim3 v; cell := at4 v 0 idx |}).
  destruct (minMaxLoc_max m) as (e & -> & He); [done | done |].
  simpl. unfold truediv. rewrite !decide_False by lia. simpl.
  by eexists.
Qed.

Lemma parse_channel_out_of_range v img_size threshold H W idx :
  (dim1 v ≤ idx)%nat →
  parse_channel v img_size threshold H W idx = Raise IndexError.
Proof.
  intros Hidx. unfold parse_channel, plane.
  by rewrite decide_False by lia.
Qed.

(** X1. Extraction returns a pose exactly when the network output is
    well formed (or the predictor has no body part): at least one
    image, a channel for every entry of [BODY_PARTS], Background
    included, and a non-empty confidence map. An output with a
    non-empty map but fewer channels than [BODY_PARTS] has entries makes
    it raise [IndexError]: no partial pose is returned. *)
Theorem parse_keypoints_needs_every_channel
    (self : topology) (v : ndarray4) (img_size : Z * Z) (threshold : Q) :
  ((∃ points, _parse_keypoints self v img_size threshold = Ok points) ↔
   size (BODY_PARTS self) = 0%nat ∨ well_formed self v) ∧
  ((0 < dim0 v)%nat → (0 < dim2 v)%nat → (0 < dim3 v)%nat →
   (dim1 v < size (BODY_PARTS self))%nat →
   _parse_keypoints self v img_size threshold = Raise IndexError).
Proof.
  split.
  - split.
    + intros [points Hrun]. by eapply parse_keypoints_Ok_inv.
    + intros [Hzero | Hwf]; [| by apply parse_keypoints_total].
      exists []. unfold _parse_keypoints. by rewrite Hzero.
  - intros H0 H2 H3 H1. unfold _parse_keypoints.
    replace (size (BODY_PARTS self))
      with (dim1 v + S (size (BODY_PARTS self) - S (dim1 v)))%nat by lia.
    rewrite seq_app. simpl.
    apply rmap_first_failure.
    + intros idx [_ Hidx]%elem_of_seq.
      apply parse_channel_in_range; (done || lia).
    + by apply parse_channel_out_of_range.
Qed.

(** The rescaled coordinate of a position of the map lies between 0
    and the size of the image. *)
Lemma rescale_bounds {L : RoundingLaws} (d : Z) (c W : nat) :
  (0 ≤ d)%Z → (c < W)%nat → representable (inject_Z d) →
  (0 <= round (inject_Z (d * Z.of_nat c) / inject_Z (Z.of_nat W)))%Q ∧
  (round (inject_Z (d * Z.of_nat c) / inject_Z (Z.of_nat W))
   <= inject_Z d)%Q.
Proof.
  intros Hd Hc Hrep.
  assert (0 < inject_Z (Z.of_nat W))%Q as HW.
  { change 0%Q with (inject_Z 0). rewrite <- Zlt_Qlt. lia. }
  split.
  - apply round_nonneg. apply Qle_shift_div_l; [done |].
    rewrite Qmult_0_l. change 0%Q with (inject_Z 0).
    rewrite <- Zle_Qle. nia.
  - unfold representable in Hrep. rewrite <- Hrep. apply round_mono.
    apply Qle_shift_div_r; [done |].
    rewrite <- inject_Z_mult, <- Zle_Qle. nia.
Qed.

(** When the image is not smaller than the map, the coordinate stays
    one below the size of the image. *)
Lemma rescale_inside {L : RoundingLaws} (d : Z) (c W : nat) :
  (c < W)%nat → (Z.of_nat W ≤ d)%Z → representable (inject_Z (d - 1)) →
  (round (inject_Z (d * Z.of_nat c) / inject_Z (Z.of_nat W))
   <= inject_Z (d - 1))%Q.
Proof.
  intros Hc Hd Hrep.
  assert (0 < inject_Z (Z.of_nat W))%Q as HW.
  { change 0%Q with (inject_Z 0). rewrite <- Zlt_Qlt. lia. }
  unfold representable in Hrep. rewrite <- Hrep. apply round_mono.
  apply Qle_shift_div_r; [done |].
  rewrite <- inject_Z_mult, <- Zle_Qle. nia.
Qed.

(** X2. Every keypoint of a returned pose lies in the image: for an
    image whose width and height are floats, [0 <= x <= imageWidth]
    and [0 <= y <= imageHeight], and the same holds of the pixel
    [(int(x), int(y))] that is drawn. When the image is at least as
    wide (high) as the confidence map, [int(x)] ([int(y)]) is a valid
    column (row) index of the image. *)
Theorem keypoint_lies_in_image {L : RoundingLaws}
    (self : topology) (v : ndarray4) (img_w img_h : Z) (threshold : Q)
    (points : list (option keypoint)) (idx : nat) (x y prob : Q) :
  _parse_keypoints self v (img_w, img_h) threshold = Ok points →
  points !! idx = Some (Some (x, y, prob)) →
  ((0 ≤ img_w)%Z → representable (inject_Z img_w) →
   (0 <= x)%Q ∧ (x <= inject_Z img_w)%Q ∧ (0 ≤ int x ≤ img_w)%Z) ∧
  ((0 ≤ img_h)%Z → representable (inject_Z img_h) →
   (0 <= y)%Q ∧ (y <= inject_Z img_h)%Q ∧ (0 ≤ int y ≤ img_h)%Z) ∧
  ((Z.of_nat (dim3 v) ≤ img_w)%Z → representable (inject_Z (img_w - 1)) →
   (0 ≤ int x < img_w)%Z) ∧
  ((Z.of_nat (dim2 v) ≤ img_h)%Z → representable (inject_Z (img_h - 1)) →
   (0 ≤ int y < img_h)%Z).
Proof.
  intros Hrun Hk.
  destruct (parse_keypoints_returns _ _ _ _ _ Hrun) as [Hlen Hall].
  assert (idx < size (BODY_PARTS self))%nat as Hidx.
  { rewrite <- Hlen. by eapply lookup_lt_Some. }
  destruct (Hall idx Hidx) as (r & c & mx & Hmax & Hidx').
  destruct Hmax as (Hr & Hc & _).
  assert (entry (img_w, img_h) threshold (dim2 v) (dim3 v) r c mx
          = Some (x, y, prob)) as Hentry.
  { apply (inj Some). rewrite <- Hidx'. exact Hk. }
  unfold entry in Hentry.
  destruct (gt mx threshold); [| done]. injection Hentry as <- <- <-.
  simpl.
  split; [| split; [| split]].
  - intros Hw Hrep.
    destruct (rescale_bounds img_w c (dim3 v) Hw Hc Hrep) as [H0 H1].
    split; [done |]. split; [done |]. split; [by apply int_nonneg |].
    rewrite <- (int_inject_Z img_w) at 2. by apply int_mono.
  - intros Hh Hrep.
    destruct (rescale_bounds img_h r (dim2 v) Hh Hr Hrep) as [H0 H1].
    split; [done |]. split; [done |]. split; [by apply int_nonneg |].
    rewrite <- (int_inject_Z img_h) at 2. by apply int_mono.
  - intros Hw Hrep.
    pose proof (rescale_inside img_w c (dim3 v) Hc Hw Hrep) as H1.
    assert (0 <= round (inject_Z (img_w * Z.of_nat c)
                        / inject_Z (Z.of_nat (dim3 v))))%Q as H0.
    { apply round_nonneg. apply Qle_shift_div_l.
      - change 0%Q with (inject_Z 0). rewrite <- Zlt_Qlt. lia.
      - rewrite Qmult_0_l. change 0%Q with (inject_Z 0).
        rewrite <- Zle_Qle. nia. }
    split; [by apply int_nonneg |].
    apply (int_mono _ _ H0) in H1. rewrite int_inject_Z in H1. lia.
  - intros Hh Hrep.
    pose proof (rescale_inside img_h r (dim2 v) Hr Hh Hrep) as H1.
    assert (0 <= round (inject_Z (img_h * Z.of_nat r)
                        / inject_Z (Z.of_nat (dim2 v))))%Q as H0.
    { apply round_nonneg. apply Qle_shift_div_l.
      - change 0%Q with (inject_Z 0). rewrite <- Zlt_Qlt. lia.
      - rewrite Qmult_0_l. change 0%Q with (inject_Z 0).
        rewrite <- Zle_Qle. nia. }
    split; [by apply int_nonneg |].
    apply (int_mono _ _ H0) in H1. rewrite int_inject_Z in H1. lia.
Qed.

End extraction.

(** A COCO network output that lacks the Background channel. *)
Definition headless_volume : ndarray4 :=
  {| dim0 := 1; dim1 := 18; dim2 := 2; dim3 := 3;
     at4 := λ _ c row col, (Z.of_nat (c + row * col) # 10)%Q |}.

(** X1 on [headless_volume]. *)
Lemma parse_keypoints_needs_every_channel_witness :
  _parse_keypoints (R := exact) COCO headless_volume (640, 480)%Z 0.05%Q
  = Raise IndexError.
Proof.
  apply (proj2 (parse_keypoints_needs_every_channel (R := exact) COCO
                  headless_volume (640, 480)%Z 0.05%Q));
    vm_compute; lia.
Defined.

(** X2 on [ramp_volume], channel 7, whose maximum is at row 1,
    column 2. *)
Lemma keypoint_lies_in_image_witness :
  (0 ≤ int (1280 # 3) < 640)%Z ∧ (0 ≤ int (480 # 2) < 480)%Z.
Proof.
  destruct (keypoint_lies_in_image (R := exact) (L := exact_laws)
              COCO ramp_volume 640 480 0.5%Q ramp_pose 7
              (1280 # 3)%Q (480 # 2)%Q (9 # 10)%Q)
    as (_ & _ & Hx & Hy).
  - vm_compute. reflexivity.
  - reflexivity.
  - split; [apply Hx | apply Hy]; (vm_compute; discriminate) || reflexivity.
Defined.

End ExtractionFacts.

(** ** Extraction: the threshold and what is read of the output *)

Module ThresholdFacts.
Import Py OpenPose PyFacts MinMaxLocFacts KeypointFacts.

(** Dropping from a pose the keypoints whose confidence is not above
    [threshold]. *)
Definition keep_above (threshold : Q) (p : option keypoint)
    : option keypoint :=
  match p with
  | Some k => if gt (prob_of k) threshold then Some k else None
  | None => None
  end.

Lemma rmap_post {A B} (f f' : A → result B) (g : B → B) (xs : list A) :
  (∀ x, x ∈ xs →
     f' x = match f x with Ok y => Ok (g y) | Raise e => Raise e end) →
  rmap f' xs
  = match rmap f xs with Ok ys => Ok (g <$> ys) | Raise e => Raise e end.
Proof.
  induction xs as [|x xs IH]; intros Hf; simpl; [done |].
  rewrite (Hf x) by left. destruct (f x) as [y|e]; simpl; [| done].
  rewrite IH by (intros x' Hx'; apply Hf; by right).
  by destruct (rmap f xs).
Qed.

Lemma foldl_ext_in {A B} (f g : A → B → A) (l : list B) (a : A) :
  (∀ a b, b ∈ l → f a b = g a b) → foldl f a l = foldl g a l.
Proof.
  revert a. induction l as [|b l IH]; intros a Hfg; simpl; [done |].
  rewrite (Hfg a b) by left. apply IH. intros a' b' Hb'. apply Hfg.
  by right.
Qed.

(** The maximum search reads the entries of the matrix only. *)
Lemma minMaxLoc_ext (m m' : mat) :
  rows m = rows m' → cols m = cols m' →
  (∀ r c, (r < rows m)%nat → (c < cols m)%nat → cell m r c = cell m' r c) →
  minMaxLoc m = minMaxLoc m'.
Proof.
  intros Hrows Hcols Hcell.
  assert (scan_order m = scan_order m') as Hscan.
  { unfold scan_order, ofs2idx. by rewrite Hrows, Hcols. }
  assert (∀ rc, rc ∈ scan_order m → cell m rc.1 rc.2 = cell m' rc.1 rc.2)
    as Hin.
  { intros [r c] [Hr Hc]%elem_of_scan_order. by apply Hcell. }
  unfold minMaxLoc. rewrite <- Hscan.
  destruct (scan_order m) as [|rc rest]; [done |].
  rewrite (Hin rc) by left. f_equal.
  apply foldl_ext_in. intros e rc' Hrc'. unfold visit.
  by rewrite (Hin rc') by by right.
Qed.

Section extraction.
Context {R : Rounding}.

Lemma parse_channel_threshold v img_size threshold threshold' H W idx :
  (threshold <= threshold')%Q →
  parse_channel v img_size threshold' H W idx
  = match parse_channel v img_size threshold H W idx with
    | Ok p => Ok (keep_above threshold' p)
    | Raise e => Raise e
    end.
Proof.
  intros Hle. unfold parse_channel, mbind, result_bind, mret, result_ret.
  destruct (plane v 0 idx) as [m|e]; simpl; [| done].
  destruct (minMaxLoc m) as [e|e']; simpl; [| done].
  destruct (truediv _ _) as [x|e']; simpl; [| done].
  destruct (truediv _ _) as [y|e']; simpl; [| done].
  f_equal.
  destruct (gt (maxVal e) threshold) eqn:Hgt; simpl.
  - done.
  - apply gt_false in Hgt.
    assert (gt (maxVal e) threshold' = false) as ->; [| done].
    apply gt_false. by apply Qle_trans with threshold.
Qed.

(** X14. Extraction with a higher threshold gives the pose extracted
    with the lower one, with the keypoints whose confidence is not
    above the higher threshold replaced by [None]: raising the
    threshold drops keypoints and changes no coordinate. Whether
    extraction raises, and what, does not depend on the threshold. *)
Theorem raising_threshold_only_drops_keypoints
    (self : topology) (v : ndarray4) (img_size : Z * Z)
    (threshold threshold' : Q) :
  (threshold <= threshold')%Q →
  _parse_keypoints self v img_size threshold'
  = match _parse_keypoints self v img_size threshold with
    | Ok pose => Ok (keep_above threshold' <$> pose)
    | Raise e => Raise e
    end.
Proof.
  intros Hle. unfold _parse_keypoints. apply rmap_post.
  intros idx _. by apply parse_channel_threshold.
Qed.

(** X15. Extraction reads the confidence maps of the first image and of
    the channels of [BODY_PARTS] only: two network outputs with maps of
    the same size that agree there give the same result, whatever lies
    in further channels (the part affinity maps) or further images. *)
Theorem parse_keypoints_reads_body_part_maps_only
    (self : topology) (v v' : ndarray4) (img_size : Z * Z) (threshold : Q) :
  (0 < dim0 v)%nat → (0 < dim0 v')%nat →
  (size (BODY_PARTS self) ≤ dim1 v)%nat →
  (size (BODY_PARTS self) ≤ dim1 v')%nat →
  dim2 v = dim2 v' → dim3 v = dim3 v' →
  (∀ idx r c, (idx < size (BODY_PARTS self))%nat →
              (r < dim2 v)%nat → (c < dim3 v)%nat →
              at4 v 0 idx r c = at4 v' 0 idx r c) →
  _parse_keypoints self v img_size threshold
  = _parse_keypoints self v' img_size threshold.
Proof.
  intros H0 H0' H1 H1' H2 H3 Hat. unfold _parse_keypoints.
  rewrite <- H2, <- H3.
  assert (∀ idx, idx ∈ seq 0 (size (BODY_PARTS self)) →
            parse_channel v img_size threshold (dim2 v) (dim3 v) idx
            = parse_channel v' img_size threshold (dim2 v) (dim3 v) idx)
    as Hchannel.
  { intros idx [_ Hidx]%elem_of_seq. unfold parse_channel, plane.
    rewrite !decide_True by lia. simpl.
    rewrite (minMaxLoc_ext
               {| rows := dim2 v; cols := dim3 v; cell := at4 v 0 idx |}
               {| rows := dim2 v'; cols := dim3 v'; cell := at4 v' 0 idx |});
      [done | done | done |].
    simpl. intros r c Hr Hc. apply Hat; (done || lia). }
  induction (seq 0 (size (BODY_PARTS self))) as [|idx idxs IH]; simpl;
    [done |].
  rewrite Hchannel by left. rewrite IH; [done |].
  intros idx' Hidx'. apply Hchannel. by right.
Qed.

End extraction.

(** X14 on [ramp_volume]: the threshold raised from 0.5 to 0.85 keeps
    the keypoint of channel 7 (confidence 0.9) and drops that of
    channel 6 (confidence 0.8). *)
Lemma raising_threshold_only_drops_keypoints_witness :
  _parse_keypoints (R := exact) COCO ramp_volume (640, 480)%Z 0.85%Q
  = Ok (keep_above 0.85%Q <$> ramp_pose) ∧
  ramp_pose !! 6%nat = Some (Some (1280 # 3, 480 # 2, 8 # 10)%Q) ∧
  (keep_above 0.85%Q <$> ramp_pose) !! 6%nat = Some None ∧
  (keep_above 0.85%Q <$> ramp_pose) !! 7%nat
  = Some (Some (1280 # 3, 480 # 2, 9 # 10)%Q).
Proof.
  split; [| repeat split; reflexivity].
  rewrite (raising_threshold_only_drops_keypoints (R := exact) COCO
             ramp_volume (640, 480)%Z 0.5%Q 0.85%Q).
  - reflexivity.
  - vm_compute. discriminate.
Defined.

(** [ramp_volume] with a second image and other part affinity maps. *)
Definition ramp_batch : ndarray4 :=
  {| dim0 := 2; dim1 := 57; dim2 := 2; dim3 := 3;
     at4 := λ i c row col,
       if decide (i = 0 ∧ c < 19)%nat
       then (Z.of_nat (c + row * col) # 10)%Q else 1%Q |}.

(** X15 on [ramp_volume] and [ramp_batch]. *)
Lemma parse_keypoints_reads_body_part_maps_only_witness :
  _parse_keypoints (R := exact) COCO ramp_volume (640, 480)%Z 0.5%Q
  = _parse_keypoints (R := exact) COCO ramp_batch (640, 480)%Z 0.5%Q.
Proof.
  apply (parse_keypoints_reads_body_part_maps_only (R := exact) COCO
           ramp_volume ramp_batch (640, 480)%Z 0.5%Q);
    try (vm_compute; lia); try reflexivity.
  intros idx r c Hidx _ _. simpl.
  rewrite decide_True; [done |]. split; [done |].
  change (size (BODY_PARTS COCO)) with 19%nat in Hidx. exact Hidx.
Defined.

End ThresholdFacts.

(** ** The renderer: markers, short and long poses, predicted poses *)

Module MarkerFacts.
Import Py OpenPose PyFacts KeypointFacts RenderFacts.

(** The circle drawn for a keypoint. *)
Definition circle (x y : Q) : draw :=
  Circle (int x, int y) 15 (0, 255, 255)%Z (-1) FILLED.

(** The index label drawn for body part [i]. *)
Definition label (i : nat) (x y : Q) : draw :=
  PutText (pretty i) (int x, int y) FONT_HERSHEY_SIMPLEX 1.4%Q
          (0, 0, 255)%Z 3 LINE_AA.

Lemma marker_visible keypoints put_text threshold i x y prob :
  keypoints !! i = Some (Some (x, y, prob)) → (threshold < prob)%Q →
  marker keypoints put_text threshold i
  = circle x y :: (if put_text then [label i x y] else []).
Proof.
  intros Hk Hgt%gt_true. unfold marker. by rewrite Hk, Hgt.
Qed.

Lemma marker_hidden keypoints put_text threshold i :
  (∀ x y prob, keypoints !! i = Some (Some (x, y, prob)) →
               (prob <= threshold)%Q) →
  marker keypoints put_text threshold i = [].
Proof.
  intros Hk. unfold marker.
  destruct (keypoints !! i) as [[[[x y] prob]|]|]; try done.
  specialize (Hk x y prob eq_refl). apply gt_false in Hk. by rewrite Hk.
Qed.

Lemma flat_map_ext_in {A B} (f g : A → list B) (l : list A) :
  (∀ x, x ∈ l → f x = g x) → flat_map f l = flat_map g l.
Proof.
  induction l as [|x l IH]; intros Hfg; simpl; [done |].
  rewrite (Hfg x) by left. rewrite IH; [done |].
  intros y Hy. apply Hfg. by right.
Qed.

Lemma elem_of_flat_map_2 {A B} (f : A → list B) (l : list A) x y :
  x ∈ l → y ∈ f x → y ∈ flat_map f l.
Proof.
  intros Hx Hy. induction l as [|a l IH]; [by apply elem_of_nil in Hx |].
  simpl. apply elem_of_app.
  apply elem_of_cons in Hx as [<- | Hx]; [by left | right; by apply IH].
Qed.

(** X3. On the image [visualize] returns, the calls drawn on top of the
    input are, in this order, the markers of the body parts by
    increasing index and then the segments of the pairs: body part [i]
    gets a filled yellow circle of radius 15 at [(int(x), int(y))]
    (followed by its index as a label when [put_text] is set) when its
    keypoint is present with a confidence strictly above the
    threshold, and nothing otherwise. *)
Theorem markers_then_skeleton
    (p : predictor) (keypoints : list (option keypoint)) (img : ref)
    (put_text : bool) (threshold : Q) (h h' : heap) (r : ref) :
  let self := _init__model_infor p in
  visualize self keypoints img put_text threshold h = (h', Ok r) →
  ∃ im im',
    h !! img = Some im ∧ h' !! r = Some im' ∧
    pixels im' = pixels im ∧
    drawn im'
    = drawn im ++
      flat_map (marker keypoints put_text threshold)
               (seq 0 (size (BODY_PARTS self))) ++
      flat_map (edge self keypoints threshold) (POSE_PAIRS self) ∧
    (∀ i x y prob,
       keypoints !! i = Some (Some (x, y, prob)) → (threshold < prob)%Q →
       marker keypoints put_text threshold i
       = circle x y :: (if put_text then [label i x y] else [])) ∧
    (∀ i,
       (∀ x y prob, keypoints !! i = Some (Some (x, y, prob)) →
                    (prob <= threshold)%Q) →
       marker keypoints put_text threshold i = []).
Proof.
  intros self Hrun. subst self.
  destruct (visualize_Ok_inv _ _ _ _ _ _ _ _ Hrun) as [Hlen [im Himg]].
  rewrite (visualize_spec _ keypoints img put_text threshold h im)
    in Hrun; [| done | by apply predictor_pairs_in_range | done].
  injection Hrun as <- <-.
  exists im. eexists. split; [done |].
  split; [by rewrite lookup_insert_eq |]. split; [done |].
  split; [done |]. split.
  - intros i x y prob. apply marker_visible.
  - intros i. apply marker_hidden.
Qed.

(** X4. A pose with fewer entries than [BODY_PARTS] is never drawn:
    neither [_visualize_points] nor [visualize] returns an image for
    it, whatever the entries, the image and the options are; the run
    raises. *)
Theorem visualize_rejects_short_pose
    (self : topology) (keypoints : list (option keypoint)) (img : ref)
    (put_text : bool) (threshold : Q) (h : heap) :
  (length keypoints < size (BODY_PARTS self))%nat →
  (∃ e, (_visualize_points self keypoints img put_text threshold h).2
        = Raise e) ∧
  (∃ e, (visualize self keypoints img put_text threshold h).2 = Raise e).
Proof.
  intros Hlen. split.
  - destruct (_visualize_points self keypoints img put_text threshold h)
      as [h' [r | e]] eqn:Hrun; [| by exists e].
    apply visualize_points_Ok_inv in Hrun. lia.
  - destruct (visualize self keypoints img put_text threshold h)
      as [h' [r | e]] eqn:Hrun; [| by exists e].
    apply visualize_Ok_inv in Hrun as [Hle _]. lia.
Qed.

(** X5. The renderer reads the first [len(BODY_PARTS)] entries of the
    pose only: entries after them change nothing. *)
Theorem visualize_ignores_further_entries
    (p : predictor) (keypoints extra : list (option keypoint)) (img : ref)
    (put_text : bool) (threshold : Q) (h : heap) :
  let self := _init__model_infor p in
  length keypoints = size (BODY_PARTS self) →
  visualize self (keypoints ++ extra) img put_text threshold h
  = visualize self keypoints img put_text threshold h.
Proof.
  intros self Hlen. subst self.
  destruct (h !! img) as [im|] eqn:Himg.
  - rewrite (visualize_spec _ keypoints img put_text threshold h im);
      [| lia | apply predictor_pairs_in_range; lia | done].
    rewrite (visualize_spec _ (keypoints ++ extra) img put_text
               threshold h im);
      [| rewrite length_app; lia
       | apply predictor_pairs_in_range; rewrite length_app; lia | done].
    do 3 f_equal. f_equal.
    + apply flat_map_ext_in. intros i [_ Hi]%elem_of_seq.
      unfold marker. by rewrite lookup_app_l by lia.
    + apply flat_map_ext_in. intros pair Hpair.
      pose proof (predictor_pairs_in_range p (length keypoints)) as Hok.
      rewrite Forall_forall in Hok.
      destruct (Hok ltac:(lia) pair Hpair)
        as (p1 & p2 & Hp1 & Hp2 & Hlt1 & Hlt2).
      unfold edge. rewrite Hp1, Hp2.
      by rewrite !lookup_app_l by lia.
  - unfold visualize, mbind, M_bind, bind, copy. by rewrite Himg.
Qed.

(** X6. A pose returned by [predict] is drawn in full by [visualize]
    when the rendering threshold is not above the extraction threshold
    (as with the defaults, 0 and 0.05): the renderer returns, every
    keypoint of the pose has its circle and every pair whose two
    keypoints are in the pose has its segment. *)
Theorem predicted_pose_is_drawn_in_full {R : Rounding}
    (p : predictor) (output : ndarray4) (img_w img_h : Z)
    (threshold threshold' : Q) (pose : list (option keypoint))
    (img : ref) (put_text : bool) (h : heap) :
  let self := _init__model_infor p in
  predict self output img_w img_h threshold = Ok pose →
  (threshold' <= threshold)%Q → is_Some (h !! img) →
  ∃ h' r im',
    visualize self pose img put_text threshold' h = (h', Ok r) ∧
    h' !! r = Some im' ∧
    (∀ i x y prob, pose !! i = Some (Some (x, y, prob)) →
                   circle x y ∈ drawn im') ∧
    (∀ pair p1 p2 k1 k2,
       pair ∈ POSE_PAIRS self →
       BODY_PARTS self !! pair.1 = Some p1 →
       BODY_PARTS self !! pair.2 = Some p2 →
       pose !! p1 = Some (Some k1) → pose !! p2 = Some (Some k2) →
       segment k1 k2 ∈ drawn im').
Proof.
  intros self Hrun Hle [im Himg]. subst self. unfold predict in Hrun.
  destruct (parse_keypoints_returns _ _ _ _ _ Hrun) as [Hlen _].
  pose proof (returned_entries _ _ _ _ _ Hrun) as Hall.
  assert (∀ i k, pose !! i = Some (Some k) → (threshold' < prob_of k)%Q)
    as Hvisible.
  { intros i k Hk.
    destruct (Hall i) as (mx & _ & _ & Hprob & _).
    { rewrite <- Hlen. by eapply lookup_lt_Some. }
    destruct (Hprob k Hk) as [_ Hlt].
    by apply Qle_lt_trans with threshold. }
  do 3 eexists. split.
  { apply (visualize_spec _ pose img put_text threshold' h im);
      [lia | apply predictor_pairs_in_range; lia | done]. }
  split; [by rewrite lookup_insert_eq |]. split.
  - intros i x y prob Hk. simpl.
    apply elem_of_app. right. apply elem_of_app. left.
    apply (elem_of_flat_map_2 _ _ i).
    + apply elem_of_seq. apply lookup_lt_Some in Hk. lia.
    + rewrite (marker_visible _ _ _ _ x y prob Hk (Hvisible _ _ Hk)).
      left.
  - intros pair p1 p2 k1 k2 Hpair Hp1 Hp2 Hk1 Hk2. simpl.
    apply elem_of_app. right. apply elem_of_app. right.
    apply (elem_of_flat_map_2 _ _ pair); [done |].
    rewrite (edge_visible _ pose threshold' pair k1 k2); [left |].
    exists p1, p2. repeat split; try done; by eapply Hvisible.
Qed.

(** *** Sample runs *)

Definition blank : image := {| pixels := [[(0, 0, 0)%Z]]; drawn := [] |}.

(** An MPI pose: Head and Neck above the threshold 0.5, LShoulder
    below. *)
Definition mpi_pose : list (option keypoint) :=
  [Some (10, 20, 0.9)%Q; Some (30, 40, 0.8)%Q; None; None; None;
   Some (70, 80, 0.1)%Q; None; None; None; None; None; None; None; None;
   None; None].

(** X3 on [mpi_pose]: two labelled circles, then the segment from Head
    to Neck. *)
Lemma markers_then_skeleton_witness :
  ∃ h' r im',
    visualize MPI mpi_pose 5%nat true 0.5%Q {[ 5%nat := blank ]}
    = (h', Ok r) ∧
    h' !! r = Some im' ∧
    drawn im'
    = [circle 10 20; label 0 10 20; circle 30 40; label 1 30 40;
       segment (10, 20, 0.9)%Q (30, 40, 0.8)%Q].
Proof.
  eassert (visualize MPI mpi_pose 5%nat true 0.5%Q {[ 5%nat := blank ]}
           = (_, Ok _)) as Hrun by (vm_compute; reflexivity).
  destruct (markers_then_skeleton MPIOpenPosePredictor mpi_pose 5%nat true
              0.5%Q _ _ _ Hrun)
    as (im & im' & Him & Him' & _ & Hdrawn & _).
  do 2 eexists. exists im'. split; [exact Hrun |]. split; [exact Him' |].
  rewrite Hdrawn. injection Him as <-. vm_compute. reflexivity.
Defined.

(** X4 on a three-entry pose given to the COCO predictor. *)
Lemma visualize_rejects_short_pose_witness :
  ∃ e,
    (visualize COCO [Some (1.5, 2.5, 0.9)%Q; None; Some (3, 4, 0.8)%Q]
       5%nat true 0%Q {[ 5%nat := blank ]}).2
    = Raise e.
Proof.
  apply (visualize_rejects_short_pose COCO
           [Some (1.5, 2.5, 0.9)%Q; None; Some (3, 4, 0.8)%Q] 5%nat true 0%Q
           {[ 5%nat := blank ]}).
  vm_compute. lia.
Defined.

(** X5 on [mpi_pose] followed by two more entries. *)
Lemma visualize_ignores_further_entries_witness :
  visualize MPI (mpi_pose ++ [Some (1, 1, 1)%Q; None]) 5%nat false 0.5%Q
    {[ 5%nat := blank ]}
  = visualize MPI mpi_pose 5%nat false 0.5%Q {[ 5%nat := blank ]}.
Proof.
  apply (visualize_ignores_further_entries MPIOpenPosePredictor mpi_pose
           [Some (1, 1, 1)%Q; None] 5%nat false 0.5%Q {[ 5%nat := blank ]}).
  vm_compute. reflexivity.
Defined.

(** X6 on the pose extracted from [ramp_volume] with threshold 0.5,
    drawn with threshold 0: the keypoint of channel 7 has its
    circle. *)
Lemma predicted_pose_is_drawn_in_full_witness :
  ∃ h' r im',
    visualize COCO ramp_pose 5%nat false 0%Q {[ 5%nat := blank ]}
    = (h', Ok r) ∧
    h' !! r = Some im' ∧
    circle (1280 # 3) (480 # 2) ∈ drawn im'.
Proof.
  destruct (predicted_pose_is_drawn_in_full (R := exact)
              COCOOpenPosePredictor ramp_volume 640 480 0.5%Q 0%Q ramp_pose
              5%nat false {[ 5%nat := blank ]})
    as (h' & r & im' & Hrun & Him' & Hcircles & _).
  - vm_compute. reflexivity.
  - vm_compute. discriminate.
  - by eexists.
  - exists h', r, im'. split; [exact Hrun |]. split; [exact Him' |].
    apply (Hcircles 7%nat (1280 # 3)%Q (480 # 2)%Q (9 # 10)%Q).
    reflexivity.
Defined.

End MarkerFacts.

(** ** Reading a pose back from its record *)

Module RecordFacts.
Import Py OpenPose PyFacts KeypointFacts SerializerFacts.

(** No keypoint of the pose has the missing value as its confidence. *)
Definition unambiguous (missing_val : Z) (pose : list (option keypoint))
    : Prop :=
  ∀ i k, pose !! i = Some (Some k) → ¬ (prob_of k == inject_Z missing_val)%Q.

Lemma unambiguous_cons missing_val p pose :
  unambiguous missing_val (p :: pose) → unambiguous missing_val pose.
Proof. intros Hpose i k Hk. by apply (Hpose (S i) k). Qed.

Lemma triple_inj missing_val (p1 p2 : option keypoint) :
  (∀ k, p1 = Some k → ¬ (prob_of k == inject_Z missing_val)%Q) →
  (∀ k, p2 = Some k → ¬ (prob_of k == inject_Z missing_val)%Q) →
  triple missing_val p1 = triple missing_val p2 → p1 = p2.
Proof.
  intros H1 H2.
  destruct p1 as [[[x1 y1] c1]|], p2 as [[[x2 y2] c2]|]; simpl.
  - by intros [= -> -> ->].
  - intros [= _ _ Hc]. destruct (H1 _ eq_refl). unfold prob_of. simpl.
    by rewrite Hc.
  - intros [= _ _ Hc]. destruct (H2 _ eq_refl). unfold prob_of. simpl.
    by rewrite <- Hc.
  - done.
Qed.

Lemma flat_inj missing_val (pose1 pose2 : list (option keypoint)) :
  unambiguous missing_val pose1 → unambiguous missing_val pose2 →
  concat (map (triple missing_val) pose1)
  = concat (map (triple missing_val) pose2) →
  pose1 = pose2.
Proof.
  revert pose2.
  induction pose1 as [|p1 pose1 IH]; intros [|p2 pose2] H1 H2 Heq.
  - done.
  - simpl in Heq. by destruct p2 as [[[x y] c]|].
  - simpl in Heq. by destruct p1 as [[[x y] c]|].
  - change (triple missing_val p1 ++ concat (map (triple missing_val) pose1)
            = triple missing_val p2 ++ concat (map (triple missing_val) pose2))
      in Heq.
    apply app_inj_1 in Heq as [Hp Hrest].
    + f_equal.
      * apply (triple_inj missing_val); [| | done].
        -- intros k ->. by apply (H1 0%nat).
        -- intros k ->. by apply (H2 0%nat).
      * apply IH; [by eapply unambiguous_cons | by eapply unambiguous_cons
                  | done].
    + by destruct p1 as [[[x1 y1] c1]|], p2 as [[[x2 y2] c2]|].
Qed.

(** X7. With a missing value that is not positive (as the default, 0),
    the record tells the pose: two network outputs whose records are
    equal gave the same pose, absent keypoints included, since a
    keypoint that is present has a confidence above the threshold 0.05
    and so is never mistaken for the missing value. With the missing
    value 1 this fails: a keypoint (1, 1, 1) and an absent keypoint
    give the same record. *)
Theorem record_tells_the_pose {R : Rounding} {L : RoundingLaws}
    (self : topology) (output output' : ndarray4)
    (img_w img_h img_w' img_h' : Z) (missing_val : Z) (record : pose_json) :
  (missing_val ≤ 0)%Z →
  add_keypoints_to_json self output img_w img_h missing_val = Ok record →
  add_keypoints_to_json self output' img_w' img_h' missing_val = Ok record →
  (∃ pose,
     predict self output img_w img_h (literal (5 # 100)) = Ok pose ∧
     predict self output' img_w' img_h' (literal (5 # 100)) = Ok pose ∧
     keypoints_to_json pose missing_val = record) ∧
  keypoints_to_json [Some (1, 1, 1)%Q] 1 = keypoints_to_json [None] 1.
Proof.
  intros Hm Hrec Hrec'. split; [| reflexivity].
  unfold add_keypoints_to_json in Hrec, Hrec'.
  destruct (predict self output img_w img_h (literal (5 # 100)))
    as [pose|e] eqn:Hrun; [| done].
  destruct (predict self output' img_w' img_h' (literal (5 # 100)))
    as [pose'|e] eqn:Hrun'; [| done].
  assert (Ok (keypoints_to_json pose missing_val) = Ok record) as [= <-]
    by exact Hrec.
  assert (Ok (keypoints_to_json pose' missing_val)
          = Ok (keypoints_to_json pose missing_val)) as [= Heq]
    by exact Hrec'.
  assert (0 <= literal (5 # 100))%Q as Hthreshold.
  { apply round_nonneg. discriminate. }
  assert (∀ self output img_w img_h pose,
            predict self output img_w img_h (literal (5 # 100)) = Ok pose →
            unambiguous missing_val pose) as Hunamb.
  { intros self0 output0 w0 h0 pose0 Hrun0 i k Hk Heqk.
    unfold predict in Hrun0.
    destruct (parse_keypoints_returns _ _ _ _ _ Hrun0) as [Hlen _].
    destruct (returned_entries _ _ _ _ _ Hrun0 i) as (mx & _ & _ & Hprob & _).
    { rewrite <- Hlen. by eapply lookup_lt_Some. }
    destruct (Hprob k Hk) as [_ Hlt].
    rewrite Heqk in Hlt.
    apply (Qlt_not_le _ _ Hlt).
    apply Qle_trans with 0%Q; [| done].
    change 0%Q with (inject_Z 0). by rewrite <- Zle_Qle. }
  exists pose. split; [done |]. split; [| done]. f_equal.
  apply (flat_inj missing_val); [by eapply Hunamb | by eapply Hunamb |].
  exact Heq.
Qed.

(** X7 on [ramp_volume], read twice. *)
Lemma record_tells_the_pose_witness :
  ∃ pose,
    predict (R := exact) COCO ramp_volume 640 480
      (literal (R := exact) (5 # 100))
    = Ok pose ∧
    add_keypoints_to_json (R := exact) COCO ramp_volume 640 480 0
    = Ok (keypoints_to_json pose 0).
Proof.
  eassert (add_keypoints_to_json (R := exact) COCO ramp_volume 640 480 0
           = Ok _) as Hrec by (vm_compute; reflexivity).
  destruct (proj1 (record_tells_the_pose (R := exact) (L := exact_laws)
                     COCO ramp_volume ramp_volume 640 480 640 480 0 _
                     ltac:(lia) Hrec Hrec))
    as (pose & Hrun & _ & Hjson).
  exists pose. split; [exact Hrun |]. by rewrite Hjson.
Defined.

End RecordFacts.

(** ** The splitter: the test directory and the sizes of the groups *)

Module SplitRunFacts.
Import Py DirUtils PyFacts SplitFacts.


Section splitting.
Context {R : Rounding}.


(** The second cut is not beyond the end of the list. *)
Lemma val_end_le_length {L : RoundingLaws} (n : nat)
      (train_ratio val_ratio : Q) :
  representable (inject_Z (Z.of_nat n)) →
  (0 <= fadd train_ratio val_ratio)%Q → (fadd train_ratio val_ratio <= 1)%Q →
  (val_end n train_ratio val_ratio ≤ Z.of_nat n)%Z.
Proof.
  intros Hn H0 H1. unfold val_end.
  rewrite <- (int_inject_Z (Z.of_nat n)) at 2.
  pose proof (float_nonneg n) as Hfloat.
  apply int_mono; [by apply fmul_nonneg |].
  unfold fmul. unfold representable in Hn.
  apply Qle_trans with (round (float (Z.of_nat n))).
  - apply round_mono. rewrite <- (Qmult_1_r (float (Z.of_nat n))) at 2.
    rewrite !(Qmult_comm (float (Z.of_nat n))).
    by apply Qmult_le_compat_r.
  - apply Qle_trans with (round (inject_Z (Z.of_nat n))).
    + apply round_mono. unfold float. rewrite Hn. apply Qle_refl.
    + rewrite Hn. apply Qle_refl.
Qed.

(** X9. For non-negative ratios that pass the check (the train ratio
    and the number of files being floats), neither cut is beyond the
    end of the list, the train group has exactly [int(n * train_ratio)]
    files, the val group
    [int(n * (train_ratio + val_ratio)) - int(n * train_ratio)] and the
    test group the remaining ones; the message the run prints at its
    end names these three numbers. *)
Theorem random_split_group_sizes {L : RoundingLaws}
    (fp : list string) (draws : list nat) (train_ratio val_ratio : Q) :
  let n := length fp in
  representable train_ratio → representable (inject_Z (Z.of_nat n)) →
  (0 <= train_ratio)%Q → (0 <= val_ratio)%Q →
  (fadd train_ratio val_ratio <= 1)%Q →
  ∃ (a b : nat) train val test,
    train_end n train_ratio = Z.of_nat a ∧
    val_end n train_ratio val_ratio = Z.of_nat b ∧
    (a ≤ b ≤ n)%nat ∧
    slices (shuffle draws fp) n train_ratio val_ratio = (train, val, test) ∧
    length train = a ∧ length val = (b - a)%nat ∧
    length test = (n - b)%nat ∧
    split_done train val test
    = "Split done: train-" +:+ pretty a +:+
      ", val-" +:+ pretty (b - a)%nat +:+
      ", test-" +:+ pretty (n - b)%nat.
Proof.
  intros n Hrep Hn Ht Hv Hsum.
  pose proof (cuts_ordered n train_ratio val_ratio Hrep Ht Hv) as Hab.
  pose proof (val_end_le_length n train_ratio val_ratio Hn
                (fadd_nonneg _ _ Ht Hv) Hsum) as Hbn.
  set (a := train_end n train_ratio) in *.
  set (b := val_end n train_ratio val_ratio) in *.
  pose proof (shuffle_length draws fp) as Hs. fold n in Hs.
  exists (Z.to_nat a), (Z.to_nat b).
  exists (take (Z.to_nat a) (shuffle draws fp)),
    (take (Z.to_nat b - Z.to_nat a) (drop (Z.to_nat a) (shuffle draws fp))),
    (drop (Z.to_nat b) (shuffle draws fp)).
  split; [lia |]. split; [lia |]. split; [lia |].
  split; [by apply slices_at_ordered |].
  unfold split_done. rewrite !length_take, !length_drop, Hs.
  replace (Z.to_nat a `min` n)%nat with (Z.to_nat a) by lia.
  replace ((Z.to_nat b - Z.to_nat a) `min` (n - Z.to_nat a))%nat
    with (Z.to_nat b - Z.to_nat a)%nat by lia.
  done.
Qed.

End splitting.


(** X9 on ten files with ratios 0.5 and 0.25: 5, 2 and 3 files. *)
Lemma random_split_group_sizes_witness :
  ∃ train val test,
    slices (R := exact) (shuffle [3; 1; 4; 1; 5]%nat ten_files) 10
      0.5%Q 0.25%Q
    = (train, val, test) ∧
    length train = 5%nat ∧ length val = 2%nat ∧ length test = 3%nat ∧
    split_done train val test = "Split done: train-5, val-2, test-3".
Proof.
  destruct (random_split_group_sizes (R := exact) (L := exact_laws)
              ten_files [3; 1; 4; 1; 5]%nat 0.5%Q 0.25%Q)
    as (a & b & train & val & test & Ha & Hb & _ & Hslices & Htrain & Hval
        & Htest & Hmsg).
  - reflexivity.
  - reflexivity.
  - discriminate.
  - discriminate.
  - vm_compute. discriminate.
  - assert (a = 5%nat) as ->
      by (apply Nat2Z.inj; rewrite <- Ha; reflexivity).
    assert (b = 7%nat) as ->
      by (apply Nat2Z.inj; rewrite <- Hb; reflexivity).
    exists train, val, test. repeat split; assumption.
Defined.

End SplitRunFacts.

(** ** Listing the data files *)

Module DataPathsFacts.
Import Py DirUtils DataPaths.

Lemma split_nonempty sep s : split sep s ≠ [].
Proof.
  destruct s as [|c s]; simpl; [done |].
  destruct (Ascii.eqb c sep); [done |]. by destruct (split sep s).
Qed.

Lemma ascii_lower_char_idemp c :
  ascii_lower_char (ascii_lower_char c) = ascii_lower_char c.
Proof. destruct c as [[] [] [] [] [] [] [] []]; vm_compute; reflexivity. Qed.

Lemma ascii_lower_idemp s : ascii_lower (ascii_lower s) = ascii_lower s.
Proof.
  induction s as [|c s IH]; simpl; [done |].
  by rewrite ascii_lower_char_idemp, IH.
Qed.

Lemma sorted_Permutation xs : sorted xs ≡ₚ xs.
Proof. apply merge_sort_Permutation. Qed.

Lemma sorted_StronglySorted xs : StronglySorted String.le (sorted xs).
Proof. apply StronglySorted_merge_sort; apply _. Qed.

(** A sorted list is determined by its elements and their numbers. *)
Lemma sorted_unique xs ys : xs ≡ₚ ys → sorted xs = sorted ys.
Proof.
  intros Hperm.
  apply (StronglySorted_unique String.le _); try apply sorted_StronglySorted.
  by rewrite !sorted_Permutation.
Qed.

Section get_data_paths.
Variable is_dir : string → bool.
Variable glob : path → list string.
Variable str_Path : string → string.
Variable str_dir : string + list string → string.
Variable lower : string → string.

Abbreviation collect := (collect is_dir glob str_Path).
Abbreviation get_data_paths := (get_data_paths is_dir glob str_Path str_dir lower).
Abbreviation extension := (extension lower).

(** The files under the directories [ds], in the order of [ds]. *)
Definition found (ds : list string) : list string :=
  concat (data_paths glob <$> ds).

Lemma elem_of_found ds x :
  x ∈ found ds ↔ ∃ d, d ∈ ds ∧ x ∈ data_paths glob d.
Proof.
  unfold found. induction ds as [|d ds IH]; simpl.
  - split; [by intros ?%elem_of_nil | by intros (d & ?%elem_of_nil & _)].
  - rewrite elem_of_app, IH. split.
    + intros [Hx | (d' & Hd' & Hx)].
      * exists d. split; [left | done].
      * exists d'. split; [by right | done].
    + intros (d' & [-> | Hd']%elem_of_cons & Hx); [by left |].
      right. by exists d'.
Qed.

Lemma collect_all prefix ds f :
  Forall (λ d, is_dir d = true) ds →
  collect prefix ds f = Returns (f ++ found ds).
Proof.
  revert f. induction ds as [|d ds IH]; intros f Hds; simpl.
  - unfold found. simpl. by rewrite app_nil_r.
  - inversion Hds as [|? ? Hd Hds']; subst. rewrite Hd, IH by done.
    unfold found. simpl. by rewrite app_assoc.
Qed.

Lemma collect_first_missing prefix ds1 d ds2 f :
  Forall (λ d, is_dir d = true) ds1 → is_dir d = false →
  collect prefix (ds1 ++ d :: ds2) f
  = Raises (FileNotFoundError (prefix +:+ str_Path d +:+ " does not exist")).
Proof.
  revert f. induction ds1 as [|d1 ds1 IH]; intros f Hds Hd; simpl.
  - by rewrite Hd.
  - inversion Hds as [|? ? Hd1 Hds1]; subst. rewrite Hd1. by apply IH.
Qed.

(** The directories are all there, or there is a first one missing. *)
Lemma first_missing (ds : list string) :
  Forall (λ d, is_dir d = true) ds ∨
  ∃ ds1 d ds2, ds = ds1 ++ d :: ds2 ∧
               Forall (λ d, is_dir d = true) ds1 ∧ is_dir d = false.
Proof.
  induction ds as [|d ds IH]; [by left |].
  destruct (is_dir d) eqn:Hd.
  - destruct IH as [Hall | (ds1 & d' & ds2 & -> & Hds1 & Hd')].
    + left. by constructor.
    + right. exists (d :: ds1), d', ds2. repeat split; try done.
      by constructor.
  - right. exists [], d, ds. repeat split; try done.
Qed.

Lemma get_data_paths_all dir data_formats prefix :
  Forall (λ d, is_dir d = true) (dirs dir) →
  get_data_paths dir data_formats prefix
  = Returns (sorted (filter (λ x, extension x ∈ data_formats)
                       (found (dirs dir)))).
Proof.
  intros Hds. unfold DataPaths.get_data_paths.
  by rewrite collect_all by done.
Qed.

Lemma get_data_paths_first_missing dir data_formats prefix ds1 d ds2 :
  dirs dir = ds1 ++ d :: ds2 →
  Forall (λ d, is_dir d = true) ds1 → is_dir d = false →
  get_data_paths dir data_formats prefix
  = Raises (Exception
              (prefix +:+ "Error loading data from " +:+ str_dir dir +:+
               ": " +:+ prefix +:+ str_Path d +:+ " does not exist")
              (FileNotFoundError
                 (prefix +:+ str_Path d +:+ " does not exist"))).
Proof.
  intros Hdirs Hds1 Hd. unfold DataPaths.get_data_paths.
  by rewrite Hdirs, collect_first_missing.
Qed.

Lemma get_data_paths_Returns_inv dir data_formats prefix files :
  get_data_paths dir data_formats prefix = Returns files →
  Forall (λ d, is_dir d = true) (dirs dir).
Proof.
  intros Hrun.
  destruct (first_missing (dirs dir))
    as [Hall | (ds1 & d & ds2 & Hdirs & Hds1 & Hd)]; [done |].
  by rewrite (get_data_paths_first_missing _ _ _ _ _ _ Hdirs Hds1 Hd) in Hrun.
Qed.

(** X10. [get_data_paths] returns exactly when every entry of [dir] is
    a directory. The list it returns is sorted; it holds, as many times
    as they were found, the files found under the directories whose
    extension (the text after the last dot, in lower case) is one of
    [data_formats], and nothing else. *)
Theorem get_data_paths_selects_and_sorts
    (dir : string + list string) (data_formats : list string)
    (prefix : string) :
  (Forall (λ d, is_dir d = true) (dirs dir) ↔
   ∃ files, get_data_paths dir data_formats prefix = Returns files) ∧
  ∀ files,
    get_data_paths dir data_formats prefix = Returns files →
    StronglySorted String.le files ∧
    files ≡ₚ filter (λ x, extension x ∈ data_formats) (found (dirs dir)) ∧
    ∀ x, x ∈ files ↔
         (∃ d, d ∈ dirs dir ∧ x ∈ data_paths glob d) ∧
         extension x ∈ data_formats.
Proof.
  split.
  - split.
    + intros Hds. eexists. by apply get_data_paths_all.
    + intros [files Hrun]. by eapply get_data_paths_Returns_inv.
  - intros files Hrun.
    pose proof (get_data_paths_Returns_inv _ _ _ _ Hrun) as Hds.
    rewrite get_data_paths_all in Hrun by done. injection Hrun as <-.
    split; [apply sorted_StronglySorted |].
    split; [apply sorted_Permutation |].
    intros x. rewrite sorted_Permutation, list_elem_of_filter, elem_of_found.
    tauto.
Qed.

(** X11. When an entry of [dir] is not a directory, [get_data_paths]
    raises an [Exception] caused by the [FileNotFoundError] of the
    first such entry; its message is the prefix, 'Error loading data
    from', the argument and the message of the cause, which carries the
    prefix again. No other error is raised, and none depends on
    [data_formats]. *)
Theorem get_data_paths_reports_first_missing
    (dir : string + list string) (data_formats : list string)
    (prefix : string) (e : error) :
  get_data_paths dir data_formats prefix = Raises e ↔
  ∃ ds1 d ds2,
    dirs dir = ds1 ++ d :: ds2 ∧
    Forall (λ d, is_dir d = true) ds1 ∧ is_dir d = false ∧
    e = Exception
          (prefix +:+ "Error loading data from " +:+ str_dir dir +:+
           ": " +:+ prefix +:+ str_Path d +:+ " does not exist")
          (FileNotFoundError (prefix +:+ str_Path d +:+ " does not exist")).
Proof.
  split.
  - intros Hrun.
    destruct (first_missing (dirs dir))
      as [Hall | (ds1 & d & ds2 & Hdirs & Hds1 & Hd)].
    + by rewrite get_data_paths_all in Hrun.
    + rewrite (get_data_paths_first_missing _ _ _ _ _ _ Hdirs Hds1 Hd)
        in Hrun.
      injection Hrun as <-. by exists ds1, d, ds2.
  - intros (ds1 & d & ds2 & Hdirs & Hds1 & Hd & ->).
    by apply (get_data_paths_first_missing _ _ _ ds1 d ds2).
Qed.

(** X12. The extension of a file is put in lower case, the entries of
    [data_formats] are not: an entry that is not in lower case selects
    no file, and the call behaves as if it were not there. *)
Theorem get_data_paths_ignores_upper_case_formats
    (dir : string + list string) (data_formats : list string)
    (prefix : string) :
  (∀ s, lower (lower s) = lower s) →
  get_data_paths dir data_formats prefix
  = get_data_paths dir (filter (λ fmt, lower fmt = fmt) data_formats) prefix.
Proof.
  intros Hidemp. unfold DataPaths.get_data_paths.
  destruct (collect prefix (dirs dir) []) as [f | e]; [| done].
  f_equal. f_equal. apply list_filter_iff. intros x.
  rewrite list_elem_of_filter. split; [| tauto].
  intros Hin. split; [| done]. unfold DataPaths.extension. apply Hidemp.
Qed.

(** X13. Listing directories together returns the files of each
    listing, merged into one sorted list: a directory listed twice has
    each of its files twice. A single directory given as a string is
    treated as the list holding it. *)
Theorem get_data_paths_of_joined_lists
    (ds1 ds2 : list string) (data_formats : list string) (prefix : string)
    (files1 files2 : list string) :
  get_data_paths (inr ds1) data_formats prefix = Returns files1 →
  get_data_paths (inr ds2) data_formats prefix = Returns files2 →
  get_data_paths (inr (ds1 ++ ds2)) data_formats prefix
  = Returns (sorted (files1 ++ files2)) ∧
  sorted (files1 ++ files2) ≡ₚ files1 ++ files2 ∧
  ∀ d files,
    get_data_paths (inr [d]) data_formats prefix = Returns files →
    get_data_paths (inl d) data_formats prefix = Returns files.
Proof.
  intros Hrun1 Hrun2.
  pose proof (get_data_paths_Returns_inv _ _ _ _ Hrun1) as Hds1.
  pose proof (get_data_paths_Returns_inv _ _ _ _ Hrun2) as Hds2.
  rewrite get_data_paths_all in Hrun1, Hrun2 by done.
  injection Hrun1 as <-. injection Hrun2 as <-.
  split; [| split; [apply sorted_Permutation |]].
  - rewrite get_data_paths_all by (simpl in *; by apply Forall_app).
    f_equal. apply sorted_unique. simpl. unfold found.
    rewrite fmap_app, concat_app, filter_app.
    by rewrite !sorted_Permutation.
  - intros d files Hrun.
    pose proof (get_data_paths_Returns_inv _ _ _ _ Hrun) as Hd.
    rewrite get_data_paths_all in Hrun by done.
    by rewrite get_data_paths_all.
Qed.

End get_data_paths.

(** *** A sample file system *)

Definition sample_is_dir (d : string) : bool :=
  bool_decide (d ∈ ["cats"; "dogs"]).

Definition sample_glob (p : path) : list string :=
  match p with
  | [d; _; _] =>
      if decide (d = "cats") then ["cats/b.JPG"; "cats/a.jpg"; "cats/notes.txt"]
      else if decide (d = "dogs") then ["dogs/c.png"; "dogs/x.tar.gz"]
      else []
  | _ => []
  end.

(** The text of the argument, for names without quotes or escapes. *)
Definition sample_str_dir (dir : string + list string) : string :=
  match dir with
  | inl d => d
  | inr ds =>
      "[" +:+ String.concat ", " ((λ d, "'" +:+ d +:+ "'") <$> ds) +:+ "]"
  end.

(** X10 on the sample file system. *)
Lemma get_data_paths_selects_and_sorts_witness :
  get_data_paths sample_is_dir sample_glob id sample_str_dir ascii_lower
    (inr ["dogs"; "cats"]) ["jpg"; "png"] ""
  = Returns ["cats/a.jpg"; "cats/b.JPG"; "dogs/c.png"] ∧
  StronglySorted String.le ["cats/a.jpg"; "cats/b.JPG"; "dogs/c.png"].
Proof.
  assert (get_data_paths sample_is_dir sample_glob id sample_str_dir
            ascii_lower (inr ["dogs"; "cats"]) ["jpg"; "png"] ""
          = Returns ["cats/a.jpg"; "cats/b.JPG"; "dogs/c.png"]) as Hrun.
  { vm_compute. reflexivity. }
  split; [exact Hrun |].
  apply (proj2 (get_data_paths_selects_and_sorts sample_is_dir sample_glob
                  id sample_str_dir ascii_lower
                  (inr ["dogs"; "cats"]) ["jpg"; "png"] "") _ Hrun).
Defined.

(** X11 on the sample file system: "birds" is the first entry that is
    not a directory. *)
Lemma get_data_paths_reports_first_missing_witness :
  get_data_paths sample_is_dir sample_glob id sample_str_dir ascii_lower
    (inr ["cats"; "birds"; "fish"]) ["jpg"] "train: "
  = Raises (Exception
              "train: Error loading data from ['cats', 'birds', 'fish']: train: birds does not exist"
              (FileNotFoundError "train: birds does not exist")).
Proof.
  apply (proj2 (get_data_paths_reports_first_missing sample_is_dir
                  sample_glob id sample_str_dir ascii_lower
                  (inr ["cats"; "birds"; "fish"]) ["jpg"] "train: " _)).
  exists ["cats"], "birds", ["fish"].
  split; [reflexivity |]. split; [by repeat constructor |].
  split; reflexivity.
Defined.

(** X12 on the sample file system: the format "JPG" selects nothing. *)
Lemma get_data_paths_ignores_upper_case_formats_witness :
  get_data_paths sample_is_dir sample_glob id sample_str_dir ascii_lower
    (inl "cats") ["JPG"; "txt"] ""
  = get_data_paths sample_is_dir sample_glob id sample_str_dir ascii_lower
      (inl "cats") ["txt"] "".
Proof.
  apply (get_data_paths_ignores_upper_case_formats sample_is_dir sample_glob
           id sample_str_dir ascii_lower (inl "cats") ["JPG"; "txt"] "").
  apply ascii_lower_idemp.
Defined.

(** X13 on the sample file system, "cats" listed twice. *)
Lemma get_data_paths_of_joined_lists_witness :
  get_data_paths sample_is_dir sample_glob id sample_str_dir ascii_lower
    (inr (["cats"] ++ ["cats"])) ["jpg"] ""
  = Returns (sorted (["cats/a.jpg"; "cats/b.JPG"]
                     ++ ["cats/a.jpg"; "cats/b.JPG"])).
Proof.
  apply (get_data_paths_of_joined_lists sample_is_dir sample_glob id
           sample_str_dir ascii_lower ["cats"] ["cats"] ["jpg"] "");
    vm_compute; reflexivity.
Defined.

End DataPathsFacts.
